(** * scheme-ts: the recursive-descent parser of [src/parser.ts]

A shallow embedding of the [Parser] class and of the [Expr] node
classes, followed by the properties of the parser that the
specification states.

The parser holds an immutable token array and one mutable field, the
cursor [current].  Every method is embedded as a function from the
cursor to an [Outcome]: a returned value with the new cursor, or a
thrown error with the cursor at the time of the throw.  The mutually
recursive methods are indexed by a fuel counter; [Parser.parse] runs
them with enough fuel for the given token array (see
[parse_fuel_stable]). *)

From Stdlib Require Import List String ZArith Lia Bool Arith.
Import ListNotations.

Set Warnings "-register-all".

Local Open Scope string_scope.
Local Open Scope list_scope.

(** ** Tokens *)

(** Modelled from the spec: the [TokenType] enum is declared in
    [token.ts], which is not part of the sources at hand.  The
    specification fixes its members: left-bracket, right-bracket, symbol,
    number, string, boolean and end-of-input; the names are the ones
    [parser.ts] uses. *)
Module TokenType.

Inductive t : Type :=
| LeftBracket
| RightBracket
| Symbol
| Number
| String
| Boolean
| Eof.

(** [a === b] on two members of the enum. *)
Definition eqb (a b : t) : bool :=
  match a, b with
  | LeftBracket, LeftBracket
  | RightBracket, RightBracket
  | Symbol, Symbol
  | Number, Number
  | String, String
  | Boolean, Boolean
  | Eof, Eof => true
  | _, _ => false
  end.

End TokenType.

(** The values a token payload or a literal node can hold.  The parser
    never inspects a payload, it only moves it from the token into the
    node; numbers are kept as integers here.  [JsNullValue] is the array
    object [Parser.NULL_VALUE]; [JsUndefined] is the payload of a token
    that has none. *)
Inductive JsValue : Type :=
| JsUndefined
| JsNumber (n : Z)
| JsString (s : string)
| JsBoolean (b : bool)
| JsNullValue.

(** Modelled from the spec: the [Token] class of [token.ts]: an immutable
    value with a type tag ([getTokenType]), a lexeme ([getLexeme]) and a
    decoded payload ([getLiteral]). *)
Record Token : Type := mkToken {
  getTokenType : TokenType.t;
  getLexeme : string;
  getLiteral : JsValue
}.

(** ** Expression nodes *)

Inductive Expr : Type :=
| Call (callee : Expr) (args : list Expr)
| Symbol (token : Token)
| Literal (value : JsValue)
| If (test consequent : Expr) (alternative : option Expr)
| Define (token : Token) (value : Expr)
| Set_ (token : Token) (value : Expr)
| Let (bindings : list LetBindingNode) (body : list Expr)
| Lambda (params : list Token) (body : list Expr)
with LetBindingNode : Type :=
| mkLetBindingNode (name : Token) (value : Expr).

(** ** Errors and outcomes *)

(** The two message templates of [parser.ts], with the interpolated token
    types kept as data:
    - [UnexpectedToken found] is [`Unexpected token: ${found}`] (atom);
    - [UnexpectedTokenExpected previous expected] is
      [`Unexpected token ${previous}, expected ${expected}`] (consume). *)
Inductive Message : Type :=
| UnexpectedToken (found : TokenType.t)
| UnexpectedTokenExpected (previous expected : TokenType.t).

(** The text of a message.  How a member of [TokenType] prints is decided
    in [token.ts]; it is the parameter [show]. *)
Definition render (show : TokenType.t -> string) (m : Message) : string :=
  match m with
  | UnexpectedToken found => "Unexpected token: " ++ show found
  | UnexpectedTokenExpected previous expected =>
      "Unexpected token " ++ show previous ++ ", expected " ++ show expected
  end.

(** What a method can throw: the [SyntaxError]s the parser raises itself,
    and the [TypeError] JavaScript raises when a method is called on
    [undefined], which is what indexing the token array out of bounds
    yields. *)
Inductive Error : Type :=
| SyntaxError (message : Message)
| TypeError.

Inductive Outcome (A : Type) : Type :=
| Return (a : A) (current : nat)
| Throw (e : Error) (current : nat)
| OutOfFuel.

Arguments Return {A} a current.
Arguments Throw {A} e current.
Arguments OutOfFuel {A}.

(** A method of the parser: it reads the cursor and leaves an outcome. *)
Definition M (A : Type) : Type := nat -> Outcome A.

Definition ret {A} (a : A) : M A := fun current => Return a current.

Definition throw {A} (e : Error) : M A := fun current => Throw e current.

Definition bind {A B} (m : M A) (k : A -> M B) : M B :=
  fun current =>
    match m current with
    | Return a current' => k a current'
    | Throw e current' => Throw e current'
    | OutOfFuel => OutOfFuel
    end.

Notation "x <- m ;; k" := (bind m (fun x => k))
  (at level 61, m at next level, right associativity).
Notation "m ;;; k" := (bind m (fun _ => k))
  (at level 61, right associativity).

(** ** The parser *)

Module Parser.

Definition NULL_VALUE : JsValue := JsNullValue.

(** The lexemes [expression] dispatches on after an opening bracket. *)
Definition isSpecialForm (lexeme : string) : bool :=
  (lexeme =? "if") || (lexeme =? "define") || (lexeme =? "set!")
  || (lexeme =? "let") || (lexeme =? "lambda").

Section WithTokens.

Variable tokens : list Token.

(** [this.tokens[this.current]], [undefined] out of bounds. *)
Definition peek (current : nat) : option Token :=
  nth_error tokens current.

(** [this.tokens[this.current - 1]], [undefined] when [current] is 0. *)
Definition previous (current : nat) : option Token :=
  match current with
  | O => None
  | S c => nth_error tokens c
  end.

(** [this.peek().getTokenType() === tokenType]. *)
Definition check (tokenType : TokenType.t) : M bool :=
  fun current =>
    match peek current with
    | Some token =>
        Return (TokenType.eqb (getTokenType token) tokenType) current
    | None => Throw TypeError current
    end.

Definition isAtEnd : M bool := check TokenType.Eof.

Definition match_ (tokenType : TokenType.t) : M bool :=
  b <- check tokenType ;;
  if b then (fun current => Return true (S current)) else ret false.

(** [this.tokens[this.current++]]: no method is called on the result,
    so nothing is thrown even out of bounds. *)
Definition advance : M (option Token) :=
  fun current => Return (peek current) (S current).

(** [advance] runs after a successful [check], where the token exists
    (lemma [consume_match]); the [None] branch keeps the function
    total. *)
Definition consume (tokenType : TokenType.t) : M Token :=
  b <- check tokenType ;;
  if b then
    t <- advance ;;
    match t with
    | Some token => ret token
    | None => throw TypeError
    end
  else
    fun current =>
      match previous current with
      | Some p =>
          Throw (SyntaxError
                   (UnexpectedTokenExpected (getTokenType p) tokenType))
                current
      | None => Throw TypeError current
      end.

(** [this.previous()] where the parser goes on to use the token: it
    always follows a successful [match], so the token exists (lemma
    [previous_S]). *)
Definition previousToken : M Token :=
  fun current =>
    match previous current with
    | Some p => Return p current
    | None => Throw TypeError current
    end.

(** [this.peek()] followed by a method call on it. *)
Definition peekToken : M Token :=
  fun current =>
    match peek current with
    | Some p => Return p current
    | None => Throw TypeError current
    end.

(** [switch (true)] tries the [case] expressions in order; the three
    literal cases share one body. *)
Definition atom : M Expr :=
  s <- match_ TokenType.Symbol ;;
  if s then p <- previousToken ;; ret (Symbol p)
  else
    n <- match_ TokenType.Number ;;
    if n then p <- previousToken ;; ret (Literal (getLiteral p))
    else
      s <- match_ TokenType.String ;;
      if s then p <- previousToken ;; ret (Literal (getLiteral p))
      else
        b <- match_ TokenType.Boolean ;;
        if b then p <- previousToken ;; ret (Literal (getLiteral p))
        else
          t <- peekToken ;;
          throw (SyntaxError (UnexpectedToken (getTokenType t))).

Section Forms.

(** [this.expression()], one level of recursion further down. *)
Variable expression : M Expr.

(** [while (!this.match(TokenType.RightBracket)) acc.push(item())],
    at most [n] iterations. *)
Fixpoint untilRightBracket {A} (item : M A) (n : nat) (acc : list A)
  : M (list A) :=
  match n with
  | O => fun _ => OutOfFuel
  | S n' =>
      closed <- match_ TokenType.RightBracket ;;
      if closed then ret acc
      else x <- item ;; untilRightBracket item n' (acc ++ [x])
  end.

Definition call (n : nat) : M Expr :=
  callee <- expression ;;
  args <- untilRightBracket expression n [] ;;
  ret (Call callee args).

Definition if_ : M Expr :=
  advance ;;;
  test <- expression ;;
  consequent <- expression ;;
  closed <- match_ TokenType.RightBracket ;;
  alternative <- (if closed then ret None
                  else e <- expression ;; ret (Some e)) ;;
  consume TokenType.RightBracket ;;;
  ret (If test consequent alternative).

Definition define : M Expr :=
  advance ;;;
  name <- consume TokenType.Symbol ;;
  value <- expression ;;
  consume TokenType.RightBracket ;;;
  ret (Define name value).

Definition set : M Expr :=
  advance ;;;
  name <- consume TokenType.Symbol ;;
  value <- expression ;;
  consume TokenType.RightBracket ;;;
  ret (Set_ name value).

Definition letBinding : M LetBindingNode :=
  consume TokenType.LeftBracket ;;;
  name <- consume TokenType.Symbol ;;
  value <- expression ;;
  consume TokenType.RightBracket ;;;
  ret (mkLetBindingNode name value).

Definition let_ (n : nat) : M Expr :=
  advance ;;;
  consume TokenType.LeftBracket ;;;
  bindings <- untilRightBracket letBinding n [] ;;
  body <- untilRightBracket expression n [] ;;
  ret (Let bindings body).

Definition lambda (n : nat) : M Expr :=
  advance ;;;
  consume TokenType.LeftBracket ;;;
  params <- untilRightBracket (consume TokenType.Symbol) n [] ;;
  body <- untilRightBracket expression n [] ;;
  ret (Lambda params body).

(** The body of [expression], with the recursive calls abstracted. *)
Definition expressionBody (n : nat) : M Expr :=
  opened <- match_ TokenType.LeftBracket ;;
  if opened then
    closed <- match_ TokenType.RightBracket ;;
    if closed then ret (Literal NULL_VALUE)
    else
      token <- peekToken ;;
      if getLexeme token =? "if" then if_
      else if getLexeme token =? "define" then define
      else if getLexeme token =? "set!" then set
      else if getLexeme token =? "let" then let_ n
      else if getLexeme token =? "lambda" then lambda n
      else call n
  else atom.

End Forms.

(** [fuel] bounds the depth of the recursion and, in each form, the
    number of iterations of its loops. *)
Fixpoint expression (fuel : nat) : M Expr :=
  match fuel with
  | O => fun _ => OutOfFuel
  | S n => expressionBody (expression n) n
  end.

(** The loop of [parse], at most [n] iterations. *)
Fixpoint parseLoop (fuel n : nat) (expressions : list Expr)
  : M (list Expr) :=
  match n with
  | O => fun _ => OutOfFuel
  | S n' =>
      stop <- isAtEnd ;;
      if stop then ret expressions
      else
        expr <- expression fuel ;;
        parseLoop fuel n' (expressions ++ [expr])
  end.

Definition parseWith (fuel : nat) : Outcome (list Expr) :=
  parseLoop fuel fuel [] 0.

(** [parse()]: the cursor starts at 0.  Every step that does not throw
    moves the cursor forward, so one more unit of fuel than there are
    tokens is enough. *)
Definition parse : Outcome (list Expr) :=
  parseWith (S (List.length tokens)).

End WithTokens.

End Parser.

(** ** Tokens as the scanner builds them *)

(** Modelled from the spec: the factories of [token.ts] that the tests of
    the parser use.  A lexeme is the raw source text of the token; the
    end-of-input token stands for no text. *)
Module Tok.

Definition LeftBracket : Token :=
  mkToken TokenType.LeftBracket "(" JsUndefined.
Definition RightBracket : Token :=
  mkToken TokenType.RightBracket ")" JsUndefined.
Definition Symbol (name : string) : Token :=
  mkToken TokenType.Symbol name JsUndefined.
Definition Number (lexeme : string) (n : Z) : Token :=
  mkToken TokenType.Number lexeme (JsNumber n).
Definition Eof : Token :=
  mkToken TokenType.Eof "" JsUndefined.

End Tok.


(** A token array as the scanner hands it over: the end-of-input token
    is its last element and occurs nowhere else.  [Token.Eof()] takes no
    lexeme; all that is asked of its lexeme here is that it is not one
    of the five keywords. *)
Definition EofTerminated (tokens : list Token) : Prop :=
  exists body eof,
    tokens = body ++ [eof]
    /\ getTokenType eof = TokenType.Eof
    /\ Parser.isSpecialForm (getLexeme eof) = false
    /\ Forall (fun t => getTokenType t <> TokenType.Eof) body.

(** ** Bracketed call forms *)

(** The source text of a nested call, as a tree: an atom, the empty
    bracket pair, or a bracketed callee followed by arguments. *)
Inductive Form : Type :=
| Atom (token : Token)
| Nil
| App (callee : Form) (args : list Form).

(** The tokens of a form, in source order. *)
Fixpoint flatten (f : Form) : list Token :=
  match f with
  | Atom token => [token]
  | Nil => [Tok.LeftBracket; Tok.RightBracket]
  | App callee args =>
      Tok.LeftBracket
        :: flatten callee ++ flat_map flatten args ++ [Tok.RightBracket]
  end.

(** The tree with the same nesting and the same order of arguments. *)
Fixpoint mirror (f : Form) : Expr :=
  match f with
  | Atom token =>
      match getTokenType token with
      | TokenType.Symbol => Symbol token
      | _ => Literal (getLiteral token)
      end
  | Nil => Literal Parser.NULL_VALUE
  | App callee args => Call (mirror callee) (map mirror args)
  end.

Definition isAtomType (tokenType : TokenType.t) : bool :=
  match tokenType with
  | TokenType.Symbol | TokenType.Number
  | TokenType.String | TokenType.Boolean => true
  | _ => false
  end.

Definition headIsKeyword (f : Form) : bool :=
  match f with
  | Atom token => Parser.isSpecialForm (getLexeme token)
  | _ => false
  end.

(** Atoms are symbol, number, string or boolean tokens, and no callee is
    one of the five keywords. *)
Fixpoint wellFormed (f : Form) : bool :=
  match f with
  | Atom token => isAtomType (getTokenType token)
  | Nil => true
  | App callee args =>
      negb (headIsKeyword callee) && wellFormed callee
      && forallb wellFormed args
  end.

(** ** Lambda nodes of a tree *)

Definition isSymbolToken (token : Token) : bool :=
  TokenType.eqb (getTokenType token) TokenType.Symbol.

(** Every [Lambda] node of the tree has only symbol tokens as params. *)
Fixpoint lambdaParamsAreSymbols (e : Expr) : bool :=
  match e with
  | Call callee args =>
      lambdaParamsAreSymbols callee && forallb lambdaParamsAreSymbols args
  | Symbol _ => true
  | Literal _ => true
  | If test consequent alternative =>
      lambdaParamsAreSymbols test && lambdaParamsAreSymbols consequent
      && match alternative with
         | Some a => lambdaParamsAreSymbols a
         | None => true
         end
  | Define _ value => lambdaParamsAreSymbols value
  | Set_ _ value => lambdaParamsAreSymbols value
  | Let bindings body =>
      forallb (fun b => match b with
                        | mkLetBindingNode _ value =>
                            lambdaParamsAreSymbols value
                        end) bindings
      && forallb lambdaParamsAreSymbols body
  | Lambda params body =>
      forallb isSymbolToken params && forallb lambdaParamsAreSymbols body
  end.

(** The value of a binding has well-formed [Lambda] nodes. *)
Definition bindingValueOk (b : LetBindingNode) : bool :=
  match b with
  | mkLetBindingNode _ value => lambdaParamsAreSymbols value
  end.

(** ** Reasoning about methods *)

(** [wp m c Q E O]: run from cursor [c], the method [m] returns a value
    and a cursor in [Q], or throws an error at a cursor in [E]; [O] holds
    if the fuel runs out. *)
Definition wp {A} (m : M A) (c : nat)
    (Q : A -> nat -> Prop) (E : Error -> nat -> Prop) (O : Prop) : Prop :=
  match m c with
  | Return a c' => Q a c'
  | Throw e c' => E e c'
  | OutOfFuel => O
  end.

(** [refines m1 m2]: wherever [m1] does not run out of fuel, [m2] has
    the same outcome. *)
Definition refines {A} (m1 m2 : M A) : Prop :=
  forall c, m1 c = OutOfFuel \/ m1 c = m2 c.

(** [advances tokens m c O]: from cursor [c], a return of [m] lands
    strictly further, within the array; a throw does not move back; the
    fuel runs out only if [O] holds. *)
Definition advances {A} (tokens : list Token) (m : M A) (c : nat)
    (O : Prop) : Prop :=
  wp m c (fun _ c' => c < c' <= List.length tokens) (fun _ c' => c <= c') O.

(** [safe last m c]: from cursor [c] the method returns further on, at
    most at index [last], or throws a [SyntaxError] there or before. *)
Definition safe {A} (last : nat) (m : M A) (c : nat) : Prop :=
  wp m c (fun _ c' => c < c' <= last)
         (fun e c' => c <= c' <= last /\ e <> TypeError) True.

(** What [consume] reports: an error of the second template, thrown at
    cursor [c], names the type of the token before the cursor, and the
    token at the cursor is not of the expected type. *)
Definition namesPrevious (tokens : list Token) (e : Error) (c : nat) : Prop :=
  forall p x,
    e = SyntaxError (UnexpectedTokenExpected p x) ->
    exists prev tok,
      Parser.previous tokens c = Some prev /\ getTokenType prev = p
      /\ Parser.peek tokens c = Some tok /\ getTokenType tok <> x.

(** [yields R m c]: whatever [m] returns from cursor [c] satisfies [R]. *)
Definition yields {A} (R : A -> bool) (m : M A) (c : nat) : Prop :=
  wp m c (fun x _ => R x = true) (fun _ _ => True) True.

(** ** The whole surface syntax *)

(** Source text as a tree, one constructor per rule of the grammar that
    [expression] accepts: an atom, the empty bracket pair, a call, and
    the five special forms.  [SIf] has its alternative. *)
Inductive Source : Type :=
| SAtom (token : Token)
| SNil
| SCall (callee : Source) (args : list Source)
| SIf (test consequent alternative : Source)
| SDefine (name : Token) (value : Source)
| SSet (name : Token) (value : Source)
| SLet (bindings : list (Token * Source)) (body : list Source)
| SLambda (params : list Token) (body : list Source).

(** The tokens of a source tree, in source order. *)
Fixpoint tokensOf (s : Source) : list Token :=
  match s with
  | SAtom token => [token]
  | SNil => [Tok.LeftBracket; Tok.RightBracket]
  | SCall callee args =>
      Tok.LeftBracket
        :: tokensOf callee ++ flat_map tokensOf args ++ [Tok.RightBracket]
  | SIf test consequent alternative =>
      Tok.LeftBracket :: Tok.Symbol "if"
        :: tokensOf test ++ tokensOf consequent ++ tokensOf alternative
        ++ [Tok.RightBracket]
  | SDefine name value =>
      Tok.LeftBracket :: Tok.Symbol "define" :: name
        :: tokensOf value ++ [Tok.RightBracket]
  | SSet name value =>
      Tok.LeftBracket :: Tok.Symbol "set!" :: name
        :: tokensOf value ++ [Tok.RightBracket]
  | SLet bindings body =>
      Tok.LeftBracket :: Tok.Symbol "let" :: Tok.LeftBracket
        :: flat_map (fun b => match b with
                              | (name, value) =>
                                  Tok.LeftBracket :: name
                                    :: tokensOf value ++ [Tok.RightBracket]
                              end) bindings
        ++ Tok.RightBracket :: flat_map tokensOf body ++ [Tok.RightBracket]
  | SLambda params body =>
      Tok.LeftBracket :: Tok.Symbol "lambda" :: Tok.LeftBracket
        :: params
        ++ Tok.RightBracket :: flat_map tokensOf body ++ [Tok.RightBracket]
  end.

(** The node a source tree stands for. *)
Fixpoint treeOf (s : Source) : Expr :=
  match s with
  | SAtom token =>
      match getTokenType token with
      | TokenType.Symbol => Symbol token
      | _ => Literal (getLiteral token)
      end
  | SNil => Literal Parser.NULL_VALUE
  | SCall callee args => Call (treeOf callee) (map treeOf args)
  | SIf test consequent alternative =>
      If (treeOf test) (treeOf consequent) (Some (treeOf alternative))
  | SDefine name value => Define name (treeOf value)
  | SSet name value => Set_ name (treeOf value)
  | SLet bindings body =>
      Let (map (fun b => match b with
                         | (name, value) => mkLetBindingNode name (treeOf value)
                         end) bindings)
          (map treeOf body)
  | SLambda params body => Lambda params (map treeOf body)
  end.

Definition sourceHeadIsKeyword (s : Source) : bool :=
  match s with
  | SAtom token => Parser.isSpecialForm (getLexeme token)
  | _ => false
  end.

(** Atoms are symbol, number, string or boolean tokens; no callee is a
    keyword; the names of [define], [set!], bindings and parameters are
    symbol tokens. *)
Fixpoint wellFormedSource (s : Source) : bool :=
  match s with
  | SAtom token => isAtomType (getTokenType token)
  | SNil => true
  | SCall callee args =>
      negb (sourceHeadIsKeyword callee) && wellFormedSource callee
      && forallb wellFormedSource args
  | SIf test consequent alternative =>
      wellFormedSource test && wellFormedSource consequent
      && wellFormedSource alternative
  | SDefine name value => isSymbolToken name && wellFormedSource value
  | SSet name value => isSymbolToken name && wellFormedSource value
  | SLet bindings body =>
      forallb (fun b => match b with
                        | (name, value) =>
                            isSymbolToken name && wellFormedSource value
                        end) bindings
      && forallb wellFormedSource body
  | SLambda params body =>
      forallb isSymbolToken params && forallb wellFormedSource body
  end.

(** The tokens of one binding of [let]. *)
Definition bindingTokens (b : Token * Source) : list Token :=
  match b with
  | (name, value) =>
      Tok.LeftBracket :: name :: tokensOf value ++ [Tok.RightBracket]
  end.

Definition bindingNode (b : Token * Source) : LetBindingNode :=
  match b with
  | (name, value) => mkLetBindingNode name (treeOf value)
  end.

Definition wellFormedBinding (b : Token * Source) : bool :=
  match b with
  | (name, value) => isSymbolToken name && wellFormedSource value
  end.

(** [atCursor tokens c suffix]: what lies in [tokens] from index [c] on
    is [suffix]. *)
Definition atCursor (tokens : list Token) (c : nat) (suffix : list Token)
  : Prop :=
  exists pre, tokens = pre ++ suffix /\ List.length pre = c.

(** The forms whose closing bracket ends a loop over expressions. *)
Definition endsWithLoop (s : Source) : bool :=
  match s with
  | SCall _ _ | SLet _ _ | SLambda _ _ => true
  | _ => false
  end.

(** ** What a tree holds *)

(** The tokens and the literal values held by the nodes of a tree. *)
Inductive Leaf : Type :=
| TokenLeaf (token : Token)
| ValueLeaf (value : JsValue).

(** The leaves of a tree, in the order of a left-to-right traversal. *)
Fixpoint leaves (e : Expr) : list Leaf :=
  match e with
  | Call callee args => leaves callee ++ flat_map leaves args
  | Symbol token => [TokenLeaf token]
  | Literal value => [ValueLeaf value]
  | If test consequent alternative =>
      leaves test ++ leaves consequent
      ++ match alternative with
         | Some a => leaves a
         | None => []
         end
  | Define token value => TokenLeaf token :: leaves value
  | Set_ token value => TokenLeaf token :: leaves value
  | Let bindings body =>
      flat_map (fun b => match b with
                         | mkLetBindingNode name value =>
                             TokenLeaf name :: leaves value
                         end) bindings
      ++ flat_map leaves body
  | Lambda params body => map TokenLeaf params ++ flat_map leaves body
  end.

Definition bindingLeaves (b : LetBindingNode) : list Leaf :=
  match b with
  | mkLetBindingNode name value => TokenLeaf name :: leaves value
  end.

Definition isLiteralType (tokenType : TokenType.t) : bool :=
  match tokenType with
  | TokenType.Number | TokenType.String | TokenType.Boolean => true
  | _ => false
  end.

(** A leaf that comes from the input: a symbol token of the array, or
    the payload of one of its number, string or boolean tokens, or the
    empty-list value. *)
Definition fromInput (tokens : list Token) (l : Leaf) : Prop :=
  match l with
  | TokenLeaf token =>
      In token tokens /\ getTokenType token = TokenType.Symbol
  | ValueLeaf value =>
      value = Parser.NULL_VALUE
      \/ exists token,
          In token tokens /\ isLiteralType (getTokenType token) = true
          /\ getLiteral token = value
  end.

(** [yieldsAll P f m c]: whatever [m] returns from cursor [c], all of
    its [f] satisfy [P]. *)
Definition yieldsAll {A X} (P : X -> Prop) (f : A -> list X) (m : M A)
    (c : nat) : Prop :=
  wp m c (fun x _ => Forall P (f x)) (fun _ _ => True) True.

(** ** [LetExpr.bindingsToMap] *)

(** A JavaScript [Map] with string keys, as the list of its entries in
    insertion order, which is the order [entries()] iterates in. *)
Definition JsMap : Type := list (string * Expr).

(** [map.set(key, value)]: a key that is present keeps its place and
    takes the new value; a new key goes last. *)
Fixpoint mapSet (key : string) (value : Expr) (m : JsMap) : JsMap :=
  match m with
  | [] => [(key, value)]
  | (key', value') :: m' =>
      if key' =? key then (key, value) :: m'
      else (key', value') :: mapSet key value m'
  end.

(** [map.get(key)]. *)
Fixpoint mapGet (key : string) (m : JsMap) : option Expr :=
  match m with
  | [] => None
  | (key', value') :: m' =>
      if key' =? key then Some value' else mapGet key m'
  end.

(** [new Map(entries)]: the entries are set one after the other. *)
Definition newMap (entries : list (string * Expr)) : JsMap :=
  fold_left (fun m kv => mapSet (fst kv) (snd kv) m) entries [].

(** [binding => [binding.name.getLexeme(), binding.value]]. *)
Definition bindingEntry (b : LetBindingNode) : string * Expr :=
  match b with
  | mkLetBindingNode name value => (getLexeme name, value)
  end.

(** [bindingsToMap()] of a [Let] node with the given bindings: the
    entries of [new Map(this.bindings.map(...))]. *)
Definition bindingsToMap (bindings : list LetBindingNode) : JsMap :=
  newMap (map bindingEntry bindings).

(** ** Where a failure is reported *)

(** [located len e c]: a [SyntaxError] thrown at cursor [c] points at a
    token of an array of [len] tokens; a [TypeError] is thrown with the
    cursor behind the last token. *)
Definition located (len : nat) (e : Error) (c : nat) : Prop :=
  match e with
  | SyntaxError _ => c < len
  | TypeError => len <= c
  end.

(** [pointed tokens m c]: from cursor [c], a return of [m] lands strictly
    further and a throw is [located]. *)
Definition pointed {A} (tokens : list Token) (m : M A) (c : nat) : Prop :=
  wp m c (fun _ c' => c < c') (located (List.length tokens)) True.

(** * Properties *)

Module TokenTypeFacts.

Lemma eqb_spec (a b : TokenType.t) : reflect (a = b) (TokenType.eqb a b).
Proof. destruct a, b; simpl; constructor; congruence. Qed.

Lemma eqb_eq (a b : TokenType.t) : TokenType.eqb a b = true <-> a = b.
Proof. destruct (eqb_spec a b); split; congruence. Qed.

Lemma eqb_neq (a b : TokenType.t) : TokenType.eqb a b = false <-> a <> b.
Proof. destruct (eqb_spec a b); split; congruence. Qed.

Lemma eqb_refl (a : TokenType.t) : TokenType.eqb a a = true.
Proof. now destruct a. Qed.

End TokenTypeFacts.

(** ** Rules for [wp] *)

Section WpRules.

Context {A B : Type}.
Variables (Q : A -> nat -> Prop) (E : Error -> nat -> Prop) (O : Prop).

Lemma wp_bind (m : M B) (k : B -> M A) c :
  wp m c (fun b c' => wp (k b) c' Q E O) E O -> wp (bind m k) c Q E O.
Proof. unfold wp, bind. now destruct (m c). Qed.

Lemma wp_bind_inv (m : M B) (k : B -> M A) c :
  wp (bind m k) c Q E O -> wp m c (fun b c' => wp (k b) c' Q E O) E O.
Proof. unfold wp, bind. now destruct (m c). Qed.

Lemma wp_ret (a : A) c : Q a c -> wp (ret a) c Q E O.
Proof. exact (fun H => H). Qed.

Lemma wp_throw (e : Error) c : E e c -> wp (throw e) c Q E O.
Proof. exact (fun H => H). Qed.

Lemma wp_conseq (m : M A) c
    (Q' : A -> nat -> Prop) (E' : Error -> nat -> Prop) (O' : Prop) :
  wp m c Q' E' O' ->
  (forall a c', Q' a c' -> Q a c') ->
  (forall e c', E' e c' -> E e c') ->
  (O' -> O) ->
  wp m c Q E O.
Proof. unfold wp. destruct (m c); auto. Qed.

End WpRules.

Section WpPrimitives.

Variable tokens : list Token.
Context {A : Type}.
Variables (E : Error -> nat -> Prop) (O : Prop).

Lemma wp_check tokenType c (Q : bool -> nat -> Prop) :
  match Parser.peek tokens c with
  | Some t => Q (TokenType.eqb (getTokenType t) tokenType) c
  | None => E TypeError c
  end ->
  wp (Parser.check tokens tokenType) c Q E O.
Proof. unfold wp, Parser.check. now destruct (Parser.peek tokens c). Qed.

Lemma wp_match_ tokenType c (Q : bool -> nat -> Prop) :
  match Parser.peek tokens c with
  | Some t =>
      if TokenType.eqb (getTokenType t) tokenType
      then Q true (S c) else Q false c
  | None => E TypeError c
  end ->
  wp (Parser.match_ tokens tokenType) c Q E O.
Proof.
  unfold wp, Parser.match_, Parser.check, bind, ret.
  destruct (Parser.peek tokens c) as [t|]; [|easy].
  now destruct (TokenType.eqb (getTokenType t) tokenType).
Qed.

Lemma wp_advance c (Q : option Token -> nat -> Prop) :
  Q (Parser.peek tokens c) (S c) -> wp (Parser.advance tokens) c Q E O.
Proof. exact (fun H => H). Qed.

Lemma wp_consume tokenType c (Q : Token -> nat -> Prop) :
  match Parser.peek tokens c with
  | Some t =>
      if TokenType.eqb (getTokenType t) tokenType then Q t (S c)
      else
        match Parser.previous tokens c with
        | Some p =>
            E (SyntaxError
                 (UnexpectedTokenExpected (getTokenType p) tokenType)) c
        | None => E TypeError c
        end
  | None => E TypeError c
  end ->
  wp (Parser.consume tokens tokenType) c Q E O.
Proof.
  unfold wp, Parser.consume, Parser.check, Parser.advance, bind, ret.
  destruct (Parser.peek tokens c) as [t|] eqn:Hp; [|easy].
  destruct (TokenType.eqb (getTokenType t) tokenType); [now rewrite Hp|].
  now destruct (Parser.previous tokens c).
Qed.

Lemma wp_peekToken c (Q : Token -> nat -> Prop) :
  match Parser.peek tokens c with
  | Some t => Q t c
  | None => E TypeError c
  end ->
  wp (Parser.peekToken tokens) c Q E O.
Proof.
  unfold wp, Parser.peekToken. now destruct (Parser.peek tokens c).
Qed.

(** The outcome of [atom] by the type of the current token. *)
Lemma wp_atom c (Q : Expr -> nat -> Prop) :
  match Parser.peek tokens c with
  | Some t =>
      match getTokenType t with
      | TokenType.Symbol => Q (Symbol t) (S c)
      | TokenType.Number | TokenType.String | TokenType.Boolean =>
          Q (Literal (getLiteral t)) (S c)
      | other => E (SyntaxError (UnexpectedToken other)) c
      end
  | None => E TypeError c
  end ->
  wp (Parser.atom tokens) c Q E O.
Proof.
  unfold wp, Parser.atom, Parser.match_, Parser.check, Parser.previousToken,
    Parser.peekToken, bind, ret, throw.
  destruct (Parser.peek tokens c) as [t|] eqn:Hp; [|easy].
  unfold Parser.previous, Parser.peek in *.
  destruct (getTokenType t) eqn:Ht; simpl;
    repeat (rewrite ?Hp, ?Ht; simpl); auto.
Qed.

End WpPrimitives.

(** The loop rule: [Inv k acc c] holds when [k] iterations remain, [acc]
    has been collected and the cursor is [c]. *)
Lemma wp_untilRightBracket {A} tokens (item : M A)
    (Inv : nat -> list A -> nat -> Prop)
    (Q : list A -> nat -> Prop) (E : Error -> nat -> Prop) (O : Prop) :
  (forall acc c, Inv 0 acc c -> O) ->
  (forall k acc c, Inv (S k) acc c ->
     match Parser.peek tokens c with
     | Some t =>
         if TokenType.eqb (getTokenType t) TokenType.RightBracket
         then Q acc (S c)
         else wp item c (fun x c' => Inv k (acc ++ [x]) c') E O
     | None => E TypeError c
     end) ->
  forall k acc c,
    Inv k acc c -> wp (Parser.untilRightBracket tokens item k acc) c Q E O.
Proof.
  intros H0 HS k. induction k as [|k IH]; intros acc c HI.
  - exact (H0 _ _ HI).
  - simpl. apply wp_bind, wp_match_. specialize (HS _ _ _ HI).
    destruct (Parser.peek tokens c) as [t|]; [|exact HS].
    destruct (TokenType.eqb (getTokenType t) TokenType.RightBracket).
    + exact HS.
    + apply wp_bind. eapply wp_conseq; [exact HS| |auto|auto].
      intros x c' HI'. exact (IH _ _ HI').
Qed.

Lemma peek_Some_lt tokens c t :
  Parser.peek tokens c = Some t -> c < List.length tokens.
Proof.
  unfold Parser.peek. intros H. apply nth_error_Some. congruence.
Qed.

Lemma peek_None_ge tokens c :
  Parser.peek tokens c = None -> List.length tokens <= c.
Proof. unfold Parser.peek. apply nth_error_None. Qed.

Lemma previous_S tokens c : Parser.previous tokens (S c) = Parser.peek tokens c.
Proof. reflexivity. Qed.

(** One step of symbolic execution of a method. *)
Ltac wp_step :=
  cbv beta;
  lazymatch goal with
  | |- wp (bind _ _) _ _ _ _ => apply wp_bind
  | |- wp (ret _) _ _ _ _ => apply wp_ret
  | |- wp (throw _) _ _ _ _ => apply wp_throw
  | |- wp (Parser.match_ _ _) _ _ _ _ => apply wp_match_
  | |- wp (Parser.consume _ _) _ _ _ _ => apply wp_consume
  | |- wp (Parser.advance _) _ _ _ _ => apply wp_advance
  | |- wp (Parser.peekToken _) _ _ _ _ => apply wp_peekToken
  | |- wp (Parser.atom _) _ _ _ _ => apply wp_atom
  | |- wp (if ?b then _ else _) _ _ _ _ => destruct b eqn:?
  | H : Parser.peek ?t ?c = _ |- context [Parser.peek ?t ?c] => rewrite H
  | H : getTokenType ?t = _ |- context [getTokenType ?t] =>
      rewrite H; cbn [TokenType.eqb]
  | |- match Parser.peek ?t ?c with _ => _ end =>
      let tok := fresh "tok" in
      let Hp := fresh "Hpeek" in
      let Ht := fresh "Htype" in
      destruct (Parser.peek t c) as [tok|] eqn:Hp;
      [ pose proof (peek_Some_lt _ _ _ Hp);
        destruct (getTokenType tok) eqn:Ht; cbn [TokenType.eqb]
      | pose proof (peek_None_ge _ _ Hp) ]
  | |- match Parser.previous ?t ?c with _ => _ end =>
      destruct (Parser.previous t c) eqn:?
  | |- if ?b then _ else _ => destruct b eqn:?
  end.

Ltac wp_steps := repeat wp_step.

(** ** Every step that returns moves the cursor forward *)

Section Progress.

Variable tokens : list Token.
Local Abbreviation len := (List.length tokens).

Lemma consume_advances tokenType c O :
  advances tokens (Parser.consume tokens tokenType) c O.
Proof. unfold advances. wp_steps; lia. Qed.

Lemma untilRightBracket_advances {A} (item : M A) (O : Prop) c0 n acc :
  (forall c, c0 <= c -> advances tokens item c O) ->
  advances tokens (Parser.untilRightBracket tokens item n acc) c0
    (O \/ n <= len - c0).
Proof.
  intros Hitem. unfold advances.
  apply wp_untilRightBracket with
    (Inv := fun k _ c =>
              c0 <= c /\ (c0 < c -> c <= len) /\ n <= k + (c - c0));
    [| |lia].
  - intros _ c (H1 & H2 & H3). right.
    destruct (Nat.eq_dec c c0); [subst; lia|]. specialize (H2 ltac:(lia)).
    lia.
  - intros k acc' c (H1 & H2 & H3). wp_steps; try lia.
    all: eapply wp_conseq; [apply (Hitem c H1)|cbv beta; intros..];
      try lia; auto.
Qed.

Section Body.

Variables (e : M Expr) (n : nat).
Hypothesis He : forall c, advances tokens e c (n <= len - c).

Local Ltac call_e :=
  eapply wp_conseq; [apply He|cbv beta; intros ? ? ?..|intros ?].

Local Ltac loop item_advances :=
  lazymatch goal with
  | |- wp (Parser.untilRightBracket _ _ _ _) ?c0 _ _ _ =>
      eapply wp_conseq;
      [ apply untilRightBracket_advances with (O := n <= len - c0);
        intros ? ?; eapply wp_conseq;
        [apply item_advances|cbv beta; intros..]; auto; lia
      | cbv beta; intros ? ? ?..
      | intros ? ]
  end.

Lemma letBinding_advances c :
  advances tokens (Parser.letBinding tokens e) c (n <= len - c).
Proof.
  unfold advances, Parser.letBinding.
  repeat first [wp_step | call_e]; lia.
Qed.

Lemma expressionBody_advances c :
  advances tokens (Parser.expressionBody tokens e n) c (S n <= len - c).
Proof.
  unfold advances, Parser.expressionBody, Parser.if_, Parser.define,
    Parser.set, Parser.let_, Parser.lambda, Parser.call.
  repeat first
    [ wp_step | call_e
    | loop He | loop letBinding_advances
    | loop (fun c => consume_advances TokenType.Symbol c (n <= len - c)) ];
    lia.
Qed.

End Body.

(** Whatever the tokens and the fuel: a returned expression has moved
    the cursor forward, and the fuel runs out only when it is not more
    than the number of tokens left. *)
Lemma expression_advances fuel c :
  advances tokens (Parser.expression tokens fuel) c (fuel <= len - c).
Proof.
  revert c. induction fuel as [|n IH]; intros c.
  - unfold advances, wp. simpl. lia.
  - simpl. now apply expressionBody_advances.
Qed.

End Progress.

(** ** The loop of [parse] *)

Lemma parseLoop_advances tokens fuel k acc c :
  wp (Parser.parseLoop tokens fuel k acc) c
     (fun _ c' => c <= c' < List.length tokens)
     (fun _ c' => c <= c')
     (fuel <= List.length tokens - c \/ k <= List.length tokens - c).
Proof.
  revert acc c. induction k as [|k IH]; intros acc c.
  - unfold wp. simpl. lia.
  - simpl. unfold Parser.isAtEnd. apply wp_bind, wp_check.
    repeat wp_step; try lia.
    all: eapply wp_conseq;
      [apply (expression_advances tokens fuel c)|cbv beta; intros..];
      try lia.
    all: eapply wp_conseq; [apply IH|cbv beta; intros..]; lia.
Qed.

(** ** Token arrays that end with the end-of-input token *)

Section Safety.

Variables (body : list Token) (eof : Token).
Hypothesis eof_type : getTokenType eof = TokenType.Eof.
Hypothesis eof_lexeme : Parser.isSpecialForm (getLexeme eof) = false.
Hypothesis body_no_eof :
  Forall (fun t => getTokenType t <> TokenType.Eof) body.

Local Abbreviation tokens := (body ++ [eof]).
Local Abbreviation last := (List.length body).

Lemma peek_bound c t :
  Parser.peek tokens c = Some t ->
  c <= last
  /\ (getTokenType t <> TokenType.Eof -> c < last)
  /\ (Parser.isSpecialForm (getLexeme t) = true -> c < last).
Proof.
  unfold Parser.peek. intros H.
  assert (Hlt : c < List.length tokens) by (apply nth_error_Some; congruence).
  rewrite length_app in Hlt. simpl in Hlt.
  destruct (Nat.eq_dec c last) as [->|Hne].
  - rewrite nth_error_app2, Nat.sub_diag in H by lia. simpl in H.
    injection H as <-. repeat split; try lia; congruence.
  - repeat split; lia.
Qed.

(** The same, keyword by keyword. *)
Lemma peek_bound_keywords c t :
  Parser.peek tokens c = Some t ->
  c <= last
  /\ (getTokenType t <> TokenType.Eof -> c < last)
  /\ ((getLexeme t =? "if") = true -> c < last)
  /\ ((getLexeme t =? "define") = true -> c < last)
  /\ ((getLexeme t =? "set!") = true -> c < last)
  /\ ((getLexeme t =? "let") = true -> c < last)
  /\ ((getLexeme t =? "lambda") = true -> c < last).
Proof.
  intros Hp. destruct (peek_bound c t Hp) as (H1 & H2 & H3).
  unfold Parser.isSpecialForm in H3.
  repeat split; auto; intros H; apply H3; rewrite H;
    rewrite ?orb_true_r; reflexivity.
Qed.

Lemma peek_last : Parser.peek tokens last = Some eof.
Proof.
  unfold Parser.peek. now rewrite nth_error_app2, Nat.sub_diag by lia.
Qed.

Lemma peek_body c t :
  Parser.peek tokens c = Some t -> c < last ->
  getTokenType t <> TokenType.Eof.
Proof.
  unfold Parser.peek. intros H Hlt. rewrite nth_error_app1 in H by lia.
  rewrite Forall_forall in body_no_eof.
  apply body_no_eof. eapply nth_error_In; eauto.
Qed.

Lemma previous_None c :
  Parser.previous tokens c = None -> c = 0 \/ S last < c.
Proof.
  destruct c as [|c]; [auto|]. simpl. intros H.
  apply nth_error_None in H. rewrite length_app in H. simpl in H. lia.
Qed.

Local Ltac facts :=
  repeat match goal with
    | Hp : Parser.peek _ ?c = Some ?t |- _ =>
        let H := fresh in
        pose proof (peek_bound_keywords _ _ Hp) as H; clear Hp;
        destruct H as (? & ? & ? & ? & ? & ? & ?)
    | Hp : Parser.previous _ ?c = None |- _ =>
        apply previous_None in Hp
    | H : List.length _ <= _ |- _ => rewrite length_app in H; simpl in H
    | H : _ < List.length _ |- _ => rewrite length_app in H; simpl in H
    end;
  repeat match goal with
    | H : getTokenType ?t <> TokenType.Eof -> _ |- _ =>
        match goal with
        | Ht : getTokenType t = _ |- _ =>
            rewrite Ht in H;
            first [specialize (H ltac:(discriminate)) | clear H]
        | _ => clear H
        end
    | H : (_ =? _)%string = true -> _ |- _ =>
        first [specialize (H ltac:(assumption)) | clear H]
    end.

Local Ltac leaf :=
  try exact I; facts;
  repeat match goal with H : _ /\ _ |- _ => destruct H end;
  repeat split; first [lia | discriminate | congruence | assumption].

Lemma consume_safe tokenType c :
  tokenType <> TokenType.Eof -> 0 < c <= last ->
  safe last (Parser.consume tokens tokenType) c.
Proof.
  intros Hne Hc. unfold safe. apply wp_consume.
  destruct (Parser.peek tokens c) as [t|] eqn:Hp.
  - destruct (TokenTypeFacts.eqb_spec (getTokenType t) tokenType) as [Heq|].
    + pose proof (peek_bound _ _ Hp) as (_ & H & _).
      rewrite Heq in H. specialize (H Hne). lia.
    + destruct (Parser.previous tokens c) eqn:Hprev.
      * split; [lia|discriminate].
      * apply previous_None in Hprev. lia.
  - apply peek_None_ge in Hp. rewrite length_app in Hp. simpl in Hp. lia.
Qed.

Lemma untilRightBracket_safe {A} (item : M A) c0 k acc :
  (forall c, c0 <= c <= last -> safe last item c) ->
  c0 <= last ->
  safe last (Parser.untilRightBracket tokens item k acc) c0.
Proof.
  intros Hitem Hc0. unfold safe.
  apply wp_untilRightBracket with (Inv := fun _ _ c => c0 <= c <= last);
    [auto| |lia].
  intros k' acc' c Hc. wp_steps.
  all: try (eapply wp_conseq; [apply (Hitem c Hc)|cbv beta; intros..]).
  all: try tauto.
  all: leaf.
Qed.

Section Body.

Variables (e : M Expr) (n : nat).
Hypothesis He : forall c, c <= last -> safe last e c.

Local Ltac call_e :=
  eapply wp_conseq; [apply He|cbv beta; intros ? ? ?..|intros ?].

Local Ltac loop item_safe :=
  lazymatch goal with
  | |- wp (Parser.untilRightBracket _ _ _ _) ?c0 _ _ _ =>
      eapply wp_conseq;
      [ apply untilRightBracket_safe;
        [intros ? ?; apply item_safe|]
      | cbv beta; intros ? ? ?..
      | intros ? ]
  end.

Lemma letBinding_safe c :
  0 < c <= last -> safe last (Parser.letBinding tokens e) c.
Proof.
  intros Hc. unfold safe, Parser.letBinding.
  repeat first [wp_step | call_e]; leaf.
Qed.

Lemma expressionBody_safe c :
  c <= last -> safe last (Parser.expressionBody tokens e n) c.
Proof.
  intros Hc.
  unfold safe, Parser.expressionBody, Parser.if_, Parser.define,
    Parser.set, Parser.let_, Parser.lambda, Parser.call.
  repeat first
    [ wp_step | call_e
    | loop He | loop letBinding_safe
    | loop (consume_safe TokenType.Symbol) ];
    leaf.
Qed.

End Body.

Lemma expression_safe fuel c :
  c <= last -> safe last (Parser.expression tokens fuel) c.
Proof.
  revert c. induction fuel as [|n IH]; intros c Hc.
  - exact I.
  - simpl. now apply expressionBody_safe.
Qed.

Lemma parseLoop_safe fuel k acc c :
  c <= last ->
  wp (Parser.parseLoop tokens fuel k acc) c
     (fun _ c' => c' = last)
     (fun e c' => c' <= last /\ e <> TypeError) True.
Proof.
  revert acc c. induction k as [|k IH]; intros acc c Hc.
  - exact I.
  - simpl. unfold Parser.isAtEnd. apply wp_bind, wp_check.
    destruct (Parser.peek tokens c) as [t|] eqn:Hp.
    + destruct (TokenTypeFacts.eqb_spec (getTokenType t) TokenType.Eof)
        as [Heq|Hne].
      * apply wp_ret.
        destruct (Nat.eq_dec c last) as [|Hlt]; [assumption|].
        exfalso. apply (peek_body _ _ Hp); [lia|assumption].
      * apply wp_bind.
        eapply wp_conseq;
          [apply (expression_safe fuel c Hc)|cbv beta; intros..];
          [|intuition lia|auto].
        eapply wp_conseq; [apply IH; lia|cbv beta; intros..]; auto.
    + apply peek_None_ge in Hp. rewrite length_app in Hp. simpl in Hp. lia.
Qed.

End Safety.

(** ** More fuel does not change an outcome *)

Section Refines.

Context {A B : Type}.

Lemma refines_refl (m : M A) : refines m m.
Proof. intros c. now right. Qed.

Lemma refines_bind (m1 m2 : M B) (k1 k2 : B -> M A) :
  refines m1 m2 -> (forall b, refines (k1 b) (k2 b)) ->
  refines (bind m1 k1) (bind m2 k2).
Proof.
  intros Hm Hk c. unfold bind. destruct (Hm c) as [H|H].
  - left. now rewrite H.
  - rewrite <- H. destruct (m1 c) as [b c'| |]; auto. apply Hk.
Qed.

End Refines.

Section FuelMonotone.

Variable tokens : list Token.

Ltac refines_steps :=
  repeat first
    [ apply refines_refl
    | assumption
    | apply refines_bind; [|intros ?]
    | lazymatch goal with
      | |- refines (if ?b then _ else _) _ => destruct b
      end ].

Lemma untilRightBracket_refines {A} (item1 item2 : M A) n1 n2 acc :
  refines item1 item2 -> n1 <= n2 ->
  refines (Parser.untilRightBracket tokens item1 n1 acc)
          (Parser.untilRightBracket tokens item2 n2 acc).
Proof.
  intros Hitem. revert n2 acc.
  induction n1 as [|n1 IH]; intros n2 acc Hle.
  - intros c. now left.
  - destruct n2 as [|n2]; [lia|]. simpl. refines_steps.
    apply IH. lia.
Qed.

Lemma expressionBody_refines (e1 e2 : M Expr) n1 n2 :
  refines e1 e2 -> n1 <= n2 ->
  refines (Parser.expressionBody tokens e1 n1)
          (Parser.expressionBody tokens e2 n2).
Proof.
  intros He Hle.
  assert (Hb : refines (Parser.letBinding tokens e1)
                       (Parser.letBinding tokens e2))
    by (unfold Parser.letBinding; refines_steps).
  unfold Parser.expressionBody, Parser.if_, Parser.define, Parser.set,
    Parser.let_, Parser.lambda, Parser.call.
  refines_steps; apply untilRightBracket_refines;
    solve [assumption | apply refines_refl].
Qed.

Lemma expression_refines fuel1 fuel2 :
  fuel1 <= fuel2 ->
  refines (Parser.expression tokens fuel1) (Parser.expression tokens fuel2).
Proof.
  revert fuel2. induction fuel1 as [|n IH]; intros fuel2 Hle.
  - intros c. now left.
  - destruct fuel2 as [|m]; [lia|]. simpl.
    apply expressionBody_refines; [apply IH|]; lia.
Qed.

Lemma parseLoop_refines fuel1 fuel2 k1 k2 acc :
  fuel1 <= fuel2 -> k1 <= k2 ->
  refines (Parser.parseLoop tokens fuel1 k1 acc)
          (Parser.parseLoop tokens fuel2 k2 acc).
Proof.
  intros Hf. revert k2 acc. induction k1 as [|k1 IH]; intros k2 acc Hk.
  - intros c. now left.
  - destruct k2 as [|k2]; [lia|]. simpl. refines_steps.
    + now apply expression_refines.
    + apply IH. lia.
Qed.

(** [parse] does not run out of fuel. *)
Lemma parse_not_OutOfFuel : Parser.parse tokens <> OutOfFuel.
Proof.
  unfold Parser.parse, Parser.parseWith.
  pose proof (parseLoop_advances tokens (S (List.length tokens))
                (S (List.length tokens)) [] 0) as H.
  unfold wp in H. intros Heq. rewrite Heq in H. lia.
Qed.

(** The fuel [parse] runs with is enough: any larger amount gives the
    same outcome. *)
Lemma parse_fuel_stable fuel :
  S (List.length tokens) <= fuel ->
  Parser.parseWith tokens fuel = Parser.parse tokens.
Proof.
  intros Hle.
  destruct (parseLoop_refines (S (List.length tokens)) fuel
              (S (List.length tokens)) fuel [] Hle Hle 0) as [H|H].
  - now apply parse_not_OutOfFuel in H.
  - symmetry. exact H.
Qed.

End FuelMonotone.

(** ** Facts about the dispatch on the head lexeme *)

Lemma isSpecialForm_false lexeme :
  Parser.isSpecialForm lexeme = false ->
  (lexeme =? "if") = false /\ (lexeme =? "define") = false
  /\ (lexeme =? "set!") = false /\ (lexeme =? "let") = false
  /\ (lexeme =? "lambda") = false.
Proof.
  unfold Parser.isSpecialForm. intros H.
  repeat (apply orb_false_elim in H; destruct H as [H ?]). auto.
Qed.

(** After an opening bracket whose next token is not a closing bracket
    and is no keyword, [expression] parses a call. *)
Lemma expression_call tokens n c open head :
  Parser.peek tokens c = Some open ->
  getTokenType open = TokenType.LeftBracket ->
  Parser.peek tokens (S c) = Some head ->
  getTokenType head <> TokenType.RightBracket ->
  Parser.isSpecialForm (getLexeme head) = false ->
  Parser.expression tokens (S n) c
  = Parser.call tokens (Parser.expression tokens n) n (S c).
Proof.
  intros Ho Hot Hh Hht Hlex.
  apply isSpecialForm_false in Hlex as (H1 & H2 & H3 & H4 & H5).
  apply TokenTypeFacts.eqb_neq in Hht.
  simpl. unfold Parser.expressionBody, Parser.match_, Parser.check,
    Parser.peekToken, bind, ret.
  rewrite Ho, Hot. cbn [TokenType.eqb]. rewrite Hh, Hht. rewrite Hh.
  cbv beta iota. now rewrite H1, H2, H3, H4, H5.
Qed.

(** Where the current token is not an opening bracket, [expression] is
    [atom]. *)
Lemma expression_atom tokens n c t :
  Parser.peek tokens c = Some t ->
  getTokenType t <> TokenType.LeftBracket ->
  Parser.expression tokens (S n) c = Parser.atom tokens c.
Proof.
  intros Hp Ht. apply TokenTypeFacts.eqb_neq in Ht.
  simpl. unfold Parser.expressionBody, Parser.match_, Parser.check, bind, ret.
  now rewrite Hp, Ht.
Qed.

Lemma atom_outcome tokens c t :
  Parser.peek tokens c = Some t ->
  Parser.atom tokens c
  = match getTokenType t with
    | TokenType.Symbol => Return (Symbol t) (S c)
    | TokenType.Number | TokenType.String | TokenType.Boolean =>
        Return (Literal (getLiteral t)) (S c)
    | other => Throw (SyntaxError (UnexpectedToken other)) c
    end.
Proof.
  intros Hp.
  unfold Parser.atom, Parser.match_, Parser.check, Parser.previousToken,
    Parser.peekToken, Parser.previous, Parser.peek, bind, ret, throw in *.
  destruct (getTokenType t) eqn:Ht; simpl;
    repeat (rewrite ?Hp, ?Ht; simpl); reflexivity.
Qed.

(** One iteration of the loop of [parse]. *)
Lemma parseLoop_step tokens fuel k acc c :
  Parser.parseLoop tokens fuel (S k) acc c
  = match Parser.peek tokens c with
    | Some t =>
        if TokenType.eqb (getTokenType t) TokenType.Eof then Return acc c
        else (expr <- Parser.expression tokens fuel ;;
              Parser.parseLoop tokens fuel k (acc ++ [expr])) c
    | None => Throw TypeError c
    end.
Proof.
  simpl. unfold bind at 1. unfold Parser.isAtEnd, Parser.check.
  destruct (Parser.peek tokens c) as [t|]; [|reflexivity].
  now destruct (TokenType.eqb (getTokenType t) TokenType.Eof).
Qed.

(** A first form that throws makes [parse] throw. *)
Lemma parse_first_throws tokens t e c :
  Parser.peek tokens 0 = Some t ->
  getTokenType t <> TokenType.Eof ->
  Parser.expression tokens (S (List.length tokens)) 0 = Throw e c ->
  Parser.parse tokens = Throw e c.
Proof.
  intros Hp Ht He. apply TokenTypeFacts.eqb_neq in Ht.
  unfold Parser.parse, Parser.parseWith.
  rewrite parseLoop_step, Hp, Ht. unfold bind. now rewrite He.
Qed.

(** One form followed by the end of input. *)
Lemma parse_single tokens t e c eof :
  Parser.peek tokens 0 = Some t ->
  getTokenType t <> TokenType.Eof ->
  Parser.expression tokens (S (List.length tokens)) 0 = Return e c ->
  Parser.peek tokens c = Some eof ->
  getTokenType eof = TokenType.Eof ->
  Parser.parse tokens = Return [e] c.
Proof.
  intros Hp Ht He Hc Heof. apply TokenTypeFacts.eqb_neq in Ht.
  unfold Parser.parse, Parser.parseWith.
  rewrite parseLoop_step, Hp, Ht. unfold bind. rewrite He.
  destruct tokens as [|t0 tokens]; [discriminate|].
  change (List.length (t0 :: tokens)) with (S (List.length tokens)).
  now rewrite parseLoop_step, Hc, Heof.
Qed.

(** * The claims *)

(** ** C1: [if] without an alternative *)

(** C1. The claim is that [(if test consequent)] followed by the end of
    input parses to an [If] node without alternative, the form taking one
    closing bracket.  In [Parser.if], [match] has already taken the
    closing bracket when [consume] asks for one: the tokens of
    [(if 1 2)] make [parse] throw, and it is [(if 1 2))], with a second
    closing bracket, that yields the node. *)
Theorem if_without_alternative_takes_two_brackets :
  Parser.parse
    [Tok.LeftBracket; Tok.Symbol "if"; Tok.Number "1" 1; Tok.Number "2" 2;
     Tok.RightBracket; Tok.Eof]
  = Throw (SyntaxError
             (UnexpectedTokenExpected TokenType.RightBracket
                                      TokenType.RightBracket)) 5
  /\ Parser.parse
       [Tok.LeftBracket; Tok.Symbol "if"; Tok.Number "1" 1; Tok.Number "2" 2;
        Tok.RightBracket; Tok.RightBracket; Tok.Eof]
     = Return [If (Literal (JsNumber 1)) (Literal (JsNumber 2)) None] 6.
Proof. split; reflexivity. Qed.

(** ** C2: the message of [consume] *)

Section ConsumeError.

Variable tokens : list Token.

Local Abbreviation reports m c :=
  (wp m c (fun _ _ => True) (namesPrevious tokens) True).

Local Ltac leaf :=
  try exact I;
  let p := fresh "p" in
  let x := fresh "x" in
  let Heq := fresh "Heq" in
  intros p x Heq; try discriminate Heq;
  injection Heq as <- <-;
  eexists _, _; repeat split; eauto; congruence.

Lemma untilRightBracket_reports {A} (item : M A) k acc c :
  (forall c', reports item c') ->
  reports (Parser.untilRightBracket tokens item k acc) c.
Proof.
  intros Hitem.
  apply wp_untilRightBracket with (Inv := fun _ _ _ => True); auto.
  intros k' acc' c' _. wp_steps; try leaf.
  all: eapply wp_conseq; [apply Hitem|auto..].
Qed.

Lemma consume_reports tokenType c :
  reports (Parser.consume tokens tokenType) c.
Proof.
  apply wp_consume.
  destruct (Parser.peek tokens c) as [t|] eqn:Hp; [|leaf].
  destruct (TokenTypeFacts.eqb_spec (getTokenType t) tokenType); [leaf|].
  destruct (Parser.previous tokens c) eqn:Hprev; leaf.
Qed.

Section Body.

Variables (e : M Expr) (n : nat).
Hypothesis He : forall c, reports e c.

Local Ltac call_e :=
  eapply wp_conseq; [apply He|cbv beta; intros ? ? ?|auto..].

Local Ltac loop item_reports :=
  lazymatch goal with
  | |- wp (Parser.untilRightBracket _ _ _ _) _ _ _ _ =>
      eapply wp_conseq;
      [ apply untilRightBracket_reports; intros ?; apply item_reports
      | cbv beta; intros ? ? ?
      | auto.. ]
  end.

Lemma letBinding_reports c : reports (Parser.letBinding tokens e) c.
Proof.
  unfold Parser.letBinding. repeat first [wp_step | call_e]; leaf.
Qed.

Lemma expressionBody_reports c :
  reports (Parser.expressionBody tokens e n) c.
Proof.
  unfold Parser.expressionBody, Parser.if_, Parser.define,
    Parser.set, Parser.let_, Parser.lambda, Parser.call.
  repeat first
    [ wp_step | call_e
    | loop He | loop letBinding_reports
    | loop (consume_reports TokenType.Symbol) ];
    leaf.
Qed.

End Body.

Lemma expression_reports fuel c : reports (Parser.expression tokens fuel) c.
Proof.
  revert c. induction fuel as [|n IH]; intros c.
  - exact I.
  - simpl. now apply expressionBody_reports.
Qed.

Lemma parseLoop_reports fuel k acc c :
  reports (Parser.parseLoop tokens fuel k acc) c.
Proof.
  revert acc c. induction k as [|k IH]; intros acc c.
  - exact I.
  - simpl. unfold Parser.isAtEnd. apply wp_bind, wp_check.
    wp_steps; try leaf.
    all: eapply wp_conseq; [apply expression_reports|cbv beta; intros|auto..].
    all: eapply wp_conseq; [apply IH|auto..].
Qed.

End ConsumeError.

(** C2. When [consume] finds the current token of another type than the
    expected one, it throws a [SyntaxError] whose message is built from
    the type of the previous token and the expected type; the current
    token does not appear in it.  Every error of that template that
    [parse] throws satisfies this: at the cursor of the throw the previous
    token has the named type and the current token is not of the expected
    type. *)
Theorem consume_mismatch_names_previous_token
    tokens tokenType c tok :
  0 < c ->
  Parser.peek tokens c = Some tok ->
  getTokenType tok <> tokenType ->
  (exists prev,
      Parser.previous tokens c = Some prev
      /\ Parser.consume tokens tokenType c
         = Throw (SyntaxError
                    (UnexpectedTokenExpected (getTokenType prev) tokenType)) c
      /\ forall show,
          render show (UnexpectedTokenExpected (getTokenType prev) tokenType)
          = ("Unexpected token " ++ show (getTokenType prev)
             ++ ", expected " ++ show tokenType)%string)
  /\ (forall fuel p x c',
         Parser.parseWith tokens fuel
         = Throw (SyntaxError (UnexpectedTokenExpected p x)) c' ->
         exists prev cur,
           Parser.previous tokens c' = Some prev /\ getTokenType prev = p
           /\ Parser.peek tokens c' = Some cur /\ getTokenType cur <> x).
Proof.
  intros Hc Hp Hne. split.
  - destruct c as [|c]; [lia|].
    assert (Hprev : exists prev, Parser.peek tokens c = Some prev).
    { apply peek_Some_lt in Hp.
      destruct (Parser.peek tokens c) eqn:H; [eauto|].
      apply peek_None_ge in H. lia. }
    destruct Hprev as [prev Hprev]. exists prev.
    apply TokenTypeFacts.eqb_neq in Hne.
    unfold Parser.consume, Parser.check, bind.
    rewrite Hp, Hne. simpl. unfold Parser.peek in Hprev. rewrite Hprev.
    auto.
  - intros fuel p x c' Hthrow.
    pose proof (parseLoop_reports tokens fuel fuel [] 0) as H.
    unfold wp in H. unfold Parser.parseWith in Hthrow. rewrite Hthrow in H.
    exact (H p x eq_refl).
Qed.

Lemma consume_mismatch_names_previous_token_witness :
  exists prev,
    Parser.previous [Tok.LeftBracket; Tok.Symbol "define"; Tok.Number "1" 1;
                     Tok.Eof] 2
    = Some prev
    /\ Parser.consume [Tok.LeftBracket; Tok.Symbol "define";
                       Tok.Number "1" 1; Tok.Eof] TokenType.Symbol 2
       = Throw (SyntaxError
                  (UnexpectedTokenExpected (getTokenType prev)
                                           TokenType.Symbol)) 2
    /\ forall show,
        render show (UnexpectedTokenExpected (getTokenType prev)
                                             TokenType.Symbol)
        = ("Unexpected token " ++ show (getTokenType prev)
           ++ ", expected " ++ show TokenType.Symbol)%string.
Proof.
  apply (consume_mismatch_names_previous_token
           [Tok.LeftBracket; Tok.Symbol "define"; Tok.Number "1" 1; Tok.Eof]
           TokenType.Symbol 2 (Tok.Number "1" 1)).
  - lia.
  - reflexivity.
  - discriminate.
Defined.

(** ** C3: unmatched brackets *)

(** C3. An unmatched bracket ends in the [atom] rule, which names the
    type of the current token.  For the tokens of [(()] (two opening
    brackets, a closing bracket, the end of input) [parse] throws the
    [atom] error naming the end-of-input type; for a lone closing bracket
    it names the right-bracket type.  In general [atom] throws the error
    naming the current token's type whenever that token is no symbol,
    number, string or boolean. *)
Theorem unmatched_bracket_names_current_token open1 open2 close eof :
  getTokenType open1 = TokenType.LeftBracket ->
  getTokenType open2 = TokenType.LeftBracket ->
  getTokenType close = TokenType.RightBracket ->
  getTokenType eof = TokenType.Eof ->
  Parser.isSpecialForm (getLexeme open2) = false ->
  Parser.parse [open1; open2; close; eof]
  = Throw (SyntaxError (UnexpectedToken TokenType.Eof)) 3
  /\ Parser.parse [close; eof]
     = Throw (SyntaxError (UnexpectedToken TokenType.RightBracket)) 0
  /\ (forall show,
         render show (UnexpectedToken TokenType.Eof)
         = ("Unexpected token: " ++ show TokenType.Eof)%string)
  /\ (forall tokens c t,
         Parser.peek tokens c = Some t ->
         isAtomType (getTokenType t) = false ->
         Parser.atom tokens c
         = Throw (SyntaxError (UnexpectedToken (getTokenType t))) c).
Proof.
  intros H1 H2 H3 H4 Hlex. repeat split.
  - apply parse_first_throws with (t := open1);
      [reflexivity|congruence|].
    change (List.length [open1; open2; close; eof]) with 4.
    rewrite (expression_call _ _ _ open1 open2);
      [|reflexivity|assumption|reflexivity|congruence|assumption].
    destruct open1, open2, close, eof. simpl in *. subst. reflexivity.
  - destruct close, eof. simpl in *. subst. reflexivity.
  - intros tokens c t Hp Ht. rewrite (atom_outcome _ _ _ Hp).
    now destruct (getTokenType t).
Qed.

Lemma unmatched_bracket_names_current_token_witness :
  Parser.parse [Tok.LeftBracket; Tok.LeftBracket; Tok.RightBracket; Tok.Eof]
  = Throw (SyntaxError (UnexpectedToken TokenType.Eof)) 3
  /\ Parser.parse [Tok.RightBracket; Tok.Eof]
     = Throw (SyntaxError (UnexpectedToken TokenType.RightBracket)) 0.
Proof.
  pose proof (unmatched_bracket_names_current_token
                Tok.LeftBracket Tok.LeftBracket Tok.RightBracket Tok.Eof
                eq_refl eq_refl eq_refl eq_refl eq_refl) as H.
  split; apply H.
Defined.

(** ** C6: forms with nothing in them *)

(** C6. [(lambda ())] and [(let ())], followed by the end of input,
    parse without error to one [Lambda], respectively [Let], node whose
    two sequences are empty. *)
Theorem empty_lambda_and_let_parse open1 lambdaKw letKw open2 close1 close2 eof :
  getTokenType open1 = TokenType.LeftBracket ->
  getTokenType open2 = TokenType.LeftBracket ->
  getTokenType close1 = TokenType.RightBracket ->
  getTokenType close2 = TokenType.RightBracket ->
  getTokenType eof = TokenType.Eof ->
  getTokenType lambdaKw = TokenType.Symbol ->
  getLexeme lambdaKw = "lambda" ->
  getTokenType letKw = TokenType.Symbol ->
  getLexeme letKw = "let" ->
  Parser.parse [open1; lambdaKw; open2; close1; close2; eof]
  = Return [Lambda [] []] 5
  /\ Parser.parse [open1; letKw; open2; close1; close2; eof]
     = Return [Let [] []] 5.
Proof.
  intros.
  destruct open1, open2, close1, close2, eof, lambdaKw, letKw.
  simpl in *. subst. split; reflexivity.
Qed.

Lemma empty_lambda_and_let_parse_witness :
  Parser.parse [Tok.LeftBracket; Tok.Symbol "lambda"; Tok.LeftBracket;
                Tok.RightBracket; Tok.RightBracket; Tok.Eof]
  = Return [Lambda [] []] 5
  /\ Parser.parse [Tok.LeftBracket; Tok.Symbol "let"; Tok.LeftBracket;
                   Tok.RightBracket; Tok.RightBracket; Tok.Eof]
     = Return [Let [] []] 5.
Proof.
  apply (empty_lambda_and_let_parse
           Tok.LeftBracket (Tok.Symbol "lambda") (Tok.Symbol "let")
           Tok.LeftBracket Tok.RightBracket Tok.RightBracket Tok.Eof);
    reflexivity.
Defined.

(** ** C7: the empty bracket pair *)

(** C7. An opening bracket, a closing bracket and the end of input parse
    to the one-element sequence holding [Literal NULL_VALUE], and
    [NULL_VALUE] is no number, string or boolean value. *)
Theorem empty_bracket_pair_is_null_literal open close eof :
  getTokenType open = TokenType.LeftBracket ->
  getTokenType close = TokenType.RightBracket ->
  getTokenType eof = TokenType.Eof ->
  Parser.parse [open; close; eof] = Return [Literal Parser.NULL_VALUE] 2
  /\ (forall n, Parser.NULL_VALUE <> JsNumber n)
  /\ (forall s, Parser.NULL_VALUE <> JsString s)
  /\ (forall b, Parser.NULL_VALUE <> JsBoolean b).
Proof.
  intros H1 H2 H3. destruct open, close, eof. simpl in *. subst.
  repeat split; intros; discriminate.
Qed.

Lemma empty_bracket_pair_is_null_literal_witness :
  Parser.parse [Tok.LeftBracket; Tok.RightBracket; Tok.Eof]
  = Return [Literal Parser.NULL_VALUE] 2.
Proof.
  apply (empty_bracket_pair_is_null_literal
           Tok.LeftBracket Tok.RightBracket Tok.Eof); reflexivity.
Defined.

(** ** C10: keywords away from the head position *)

(** C10. Wherever [expression] starts at a symbol token it returns the
    [Symbol] node of that token and moves one token on, whatever the
    lexeme: the keywords are looked for only in the token that follows
    an opening bracket.  There [expression] compares the lexeme with the
    five keywords in turn.  The tokens of [(f if define set! let lambda)]
    parse to a call with five [Symbol] arguments. *)
Theorem keyword_is_symbol_off_head tokens n c t :
  Parser.peek tokens c = Some t ->
  getTokenType t = TokenType.Symbol ->
  Parser.expression tokens (S n) c = Return (Symbol t) (S c)
  /\ (forall c0 open head,
         Parser.peek tokens c0 = Some open ->
         getTokenType open = TokenType.LeftBracket ->
         Parser.peek tokens (S c0) = Some head ->
         getTokenType head <> TokenType.RightBracket ->
         Parser.expression tokens (S n) c0
         = (if getLexeme head =? "if"
            then Parser.if_ tokens (Parser.expression tokens n)
            else if getLexeme head =? "define"
            then Parser.define tokens (Parser.expression tokens n)
            else if getLexeme head =? "set!"
            then Parser.set tokens (Parser.expression tokens n)
            else if getLexeme head =? "let"
            then Parser.let_ tokens (Parser.expression tokens n) n
            else if getLexeme head =? "lambda"
            then Parser.lambda tokens (Parser.expression tokens n) n
            else Parser.call tokens (Parser.expression tokens n) n) (S c0))
  /\ Parser.parse
       [Tok.LeftBracket; Tok.Symbol "f"; Tok.Symbol "if";
        Tok.Symbol "define"; Tok.Symbol "set!"; Tok.Symbol "let";
        Tok.Symbol "lambda"; Tok.RightBracket; Tok.Eof]
     = Return
         [Call (Symbol (Tok.Symbol "f"))
               [Symbol (Tok.Symbol "if"); Symbol (Tok.Symbol "define");
                Symbol (Tok.Symbol "set!"); Symbol (Tok.Symbol "let");
                Symbol (Tok.Symbol "lambda")]] 8.
Proof.
  intros Hp Ht. repeat split.
  - rewrite (expression_atom tokens n c t Hp) by congruence.
    now rewrite (atom_outcome _ _ _ Hp), Ht.
  - intros c0 open head Ho Hot Hh Hht.
    apply TokenTypeFacts.eqb_neq in Hht.
    simpl. unfold Parser.expressionBody, Parser.match_, Parser.check,
      Parser.peekToken, bind, ret.
    rewrite Ho, Hot. cbn [TokenType.eqb]. rewrite Hh, Hht. rewrite Hh.
    reflexivity.
Qed.

Lemma keyword_is_symbol_off_head_witness :
  Parser.expression [Tok.Symbol "if"; Tok.Eof] 1 0
  = Return (Symbol (Tok.Symbol "if")) 1.
Proof.
  apply (keyword_is_symbol_off_head [Tok.Symbol "if"; Tok.Eof] 0 0
           (Tok.Symbol "if")); reflexivity.
Defined.

(** ** C4: nested calls *)

Lemma peek_app pre xs k :
  Parser.peek (pre ++ xs) (List.length pre + k) = nth_error xs k.
Proof.
  unfold Parser.peek. rewrite nth_error_app2 by lia. f_equal. lia.
Qed.

Lemma peek_app_0 pre x xs :
  Parser.peek (pre ++ x :: xs) (List.length pre) = Some x.
Proof. rewrite <- (Nat.add_0_r (List.length pre)). now rewrite peek_app. Qed.

Lemma peek_app_1 pre x y xs :
  Parser.peek (pre ++ x :: y :: xs) (S (List.length pre)) = Some y.
Proof. rewrite <- (Nat.add_1_r (List.length pre)). now rewrite peek_app. Qed.

(** The first token of a well-formed form starts an expression: it is
    neither a closing bracket nor the end of input, and it is a keyword
    only if the form is a keyword atom. *)
Lemma flatten_head form :
  wellFormed form = true ->
  exists head rest,
    flatten form = head :: rest
    /\ getTokenType head <> TokenType.RightBracket
    /\ getTokenType head <> TokenType.Eof
    /\ (headIsKeyword form = false ->
        Parser.isSpecialForm (getLexeme head) = false).
Proof.
  destruct form as [t| |callee args]; simpl; intros Hwf.
  - exists t, []. repeat split; auto;
      destruct (getTokenType t); discriminate.
  - exists Tok.LeftBracket, [Tok.RightBracket].
    repeat split; auto; discriminate.
  - eexists Tok.LeftBracket, _. repeat split; auto; discriminate.
Qed.

Lemma expression_nil tokens n c open close :
  Parser.peek tokens c = Some open ->
  getTokenType open = TokenType.LeftBracket ->
  Parser.peek tokens (S c) = Some close ->
  getTokenType close = TokenType.RightBracket ->
  Parser.expression tokens (S n) c
  = Return (Literal Parser.NULL_VALUE) (S (S c)).
Proof.
  intros Ho Hot Hc Hct. simpl.
  unfold Parser.expressionBody, Parser.match_, Parser.check, bind, ret.
  rewrite Ho, Hot. cbn [TokenType.eqb]. now rewrite Hc, Hct.
Qed.

Lemma untilRightBracket_step {A} tokens (item : M A) k acc c t :
  Parser.peek tokens c = Some t ->
  Parser.untilRightBracket tokens item (S k) acc c
  = if TokenType.eqb (getTokenType t) TokenType.RightBracket
    then Return acc (S c)
    else (x <- item ;; Parser.untilRightBracket tokens item k (acc ++ [x])) c.
Proof.
  intros Hp. simpl. unfold bind at 1.
  unfold Parser.match_, Parser.check, bind, ret. rewrite Hp.
  now destruct (TokenType.eqb (getTokenType t) TokenType.RightBracket).
Qed.

Ltac list_eq :=
  repeat progress (rewrite <- ?app_assoc; simpl); reflexivity.

Section Mirror.

Variable n : nat.

(** The statement for forms of at most [n] tokens. *)
Hypothesis IH :
  forall form tokens pre rest,
    wellFormed form = true ->
    List.length (flatten form) <= n ->
    tokens = pre ++ flatten form ++ rest ->
    Parser.expression tokens n (List.length pre)
    = Return (mirror form) (List.length pre + List.length (flatten form)).

Lemma untilRightBracket_mirror args :
  forall tokens pre rest k acc,
    forallb wellFormed args = true ->
    List.length (flat_map flatten args) <= n ->
    List.length (flat_map flatten args) < k ->
    tokens = pre ++ flat_map flatten args ++ Tok.RightBracket :: rest ->
    Parser.untilRightBracket tokens (Parser.expression tokens n) k acc
      (List.length pre)
    = Return (acc ++ map mirror args)
        (S (List.length pre + List.length (flat_map flatten args))).
Proof.
  induction args as [|a args IHargs]; intros tokens pre rest k acc Hwf Hn Hk ->.
  - destruct k as [|k]; [simpl in Hk; lia|]. simpl flat_map. simpl app.
    rewrite (untilRightBracket_step _ _ _ _ _ _ (peek_app_0 _ _ _)).
    simpl. now rewrite app_nil_r, Nat.add_0_r.
  - simpl in Hwf. apply andb_prop in Hwf as [Hwa Hwargs].
    simpl flat_map in *. rewrite length_app in Hn, Hk.
    destruct (flatten_head a Hwa) as (h & tl & Hfl & Hrb & _ & _).
    destruct k as [|k]; [lia|].
    assert (Hpeek : Parser.peek
                      (pre ++ (flatten a ++ flat_map flatten args)
                           ++ Tok.RightBracket :: rest)
                      (List.length pre) = Some h).
    { rewrite Hfl. simpl. apply peek_app_0. }
    rewrite (untilRightBracket_step _ _ _ _ _ _ Hpeek).
    apply TokenTypeFacts.eqb_neq in Hrb. rewrite Hrb.
    unfold bind at 1.
    rewrite (IH a _ pre (flat_map flatten args ++ Tok.RightBracket :: rest));
      [|assumption|lia|now rewrite <- !app_assoc].
    rewrite <- length_app.
    rewrite (IHargs _ (pre ++ flatten a) rest);
      [|assumption|lia|rewrite Hfl in *; simpl in *; lia
       |list_eq].
    f_equal.
    + simpl. now rewrite <- app_assoc.
    + rewrite !length_app. lia.
Qed.

End Mirror.

Lemma expression_mirror fuel :
  forall form tokens pre rest,
    wellFormed form = true ->
    List.length (flatten form) <= fuel ->
    tokens = pre ++ flatten form ++ rest ->
    Parser.expression tokens fuel (List.length pre)
    = Return (mirror form) (List.length pre + List.length (flatten form)).
Proof.
  induction fuel as [|n IH]; intros form tokens pre rest Hwf Hlen ->.
  - destruct form; simpl in Hlen; lia.
  - destruct form as [t| |callee args].
    + simpl flatten. simpl app.
      rewrite (expression_atom _ _ _ t (peek_app_0 _ _ _))
        by (simpl in Hwf; destruct (getTokenType t); discriminate).
      rewrite (atom_outcome _ _ _ (peek_app_0 _ _ _)).
      simpl in *. rewrite Nat.add_1_r.
      destruct (getTokenType t); try discriminate; reflexivity.
    + simpl flatten. simpl app.
      rewrite (expression_nil _ _ _ Tok.LeftBracket Tok.RightBracket);
        [|apply peek_app_0|reflexivity|apply peek_app_1|reflexivity].
      simpl. f_equal. lia.
    + simpl in Hwf. apply andb_prop in Hwf as [Hwf Hwargs].
      apply andb_prop in Hwf as [Hkw Hwc]. apply negb_true_iff in Hkw.
      destruct (flatten_head callee Hwc) as (h & tl & Hfl & Hrb & _ & Hlex).
      specialize (Hlex Hkw).
      simpl flatten in *. simpl in Hlen. rewrite !length_app in Hlen.
      simpl in Hlen.
      rewrite (expression_call _ _ _ Tok.LeftBracket h);
        [|simpl; apply peek_app_0|reflexivity
         |rewrite Hfl; simpl; apply peek_app_1|assumption|assumption].
      unfold Parser.call. unfold bind at 1.
      replace (S (List.length pre))
        with (List.length (pre ++ [Tok.LeftBracket]))
        by (rewrite length_app; simpl; lia).
      rewrite (IH callee _ (pre ++ [Tok.LeftBracket])
                 (flat_map flatten args ++ Tok.RightBracket :: rest));
        [|assumption|lia|list_eq].
      rewrite <- length_app. unfold bind at 1.
      rewrite (untilRightBracket_mirror n IH args _
                 ((pre ++ [Tok.LeftBracket]) ++ flatten callee) rest);
        [|assumption|lia|rewrite Hfl in *; simpl in *; lia
         |list_eq].
      unfold ret. simpl. f_equal.
      repeat (rewrite ?length_app; simpl). lia.
Qed.

(** C4. A well-formed nested call parses to the tree with the same
    nesting, the arguments in source order: wherever the tokens of the
    form start, [expression] returns its mirror and stops right after
    them, and the form followed by the end of input parses to the
    one-element sequence of its mirror.  The tokens of
    [(+ (+ 1 2) (+ 3 4))] parse to the call of [+] on the calls
    [(+ 1 2)] and [(+ 3 4)], in that order. *)
Theorem nested_calls_mirror_brackets form :
  wellFormed form = true ->
  Parser.parse (flatten form ++ [Tok.Eof])
  = Return [mirror form] (List.length (flatten form))
  /\ (forall pre rest fuel,
         List.length (flatten form) <= fuel ->
         Parser.expression (pre ++ flatten form ++ rest) fuel
           (List.length pre)
         = Return (mirror form)
             (List.length pre + List.length (flatten form)))
  /\ Parser.parse
       [Tok.LeftBracket; Tok.Symbol "+";
        Tok.LeftBracket; Tok.Symbol "+"; Tok.Number "1" 1; Tok.Number "2" 2;
        Tok.RightBracket;
        Tok.LeftBracket; Tok.Symbol "+"; Tok.Number "3" 3; Tok.Number "4" 4;
        Tok.RightBracket;
        Tok.RightBracket; Tok.Eof]
     = Return
         [Call (Symbol (Tok.Symbol "+"))
               [Call (Symbol (Tok.Symbol "+"))
                     [Literal (JsNumber 1); Literal (JsNumber 2)];
                Call (Symbol (Tok.Symbol "+"))
                     [Literal (JsNumber 3); Literal (JsNumber 4)]]] 13.
Proof.
  intros Hwf. repeat split.
  - destruct (flatten_head form Hwf) as (h & tl & Hfl & _ & Heof & _).
    apply parse_single with (t := h) (eof := Tok.Eof).
    + now rewrite Hfl.
    + assumption.
    + apply (expression_mirror _ form _ [] [Tok.Eof]);
        [assumption|rewrite length_app; simpl; lia|reflexivity].
    + rewrite <- (Nat.add_0_r (List.length (flatten form))).
      now rewrite peek_app.
    + reflexivity.
  - intros pre rest fuel Hfuel. now apply expression_mirror with (rest := rest).
Qed.

Lemma nested_calls_mirror_brackets_witness :
  Parser.parse
    (flatten
       (App (Atom (Tok.Symbol "+"))
            [App (Atom (Tok.Symbol "+"))
                 [Atom (Tok.Number "1" 1); Atom (Tok.Number "2" 2)];
             App (Atom (Tok.Symbol "+"))
                 [Atom (Tok.Number "3" 3); Atom (Tok.Number "4" 4)]])
     ++ [Tok.Eof])
  = Return
      [Call (Symbol (Tok.Symbol "+"))
            [Call (Symbol (Tok.Symbol "+"))
                  [Literal (JsNumber 1); Literal (JsNumber 2)];
             Call (Symbol (Tok.Symbol "+"))
                  [Literal (JsNumber 3); Literal (JsNumber 4)]]] 13.
Proof.
  apply (nested_calls_mirror_brackets
           (App (Atom (Tok.Symbol "+"))
                [App (Atom (Tok.Symbol "+"))
                     [Atom (Tok.Number "1" 1); Atom (Tok.Number "2" 2)];
                 App (Atom (Tok.Symbol "+"))
                     [Atom (Tok.Number "3" 3); Atom (Tok.Number "4" 4)]])).
  reflexivity.
Defined.

(** ** C5: the parameters of [lambda] *)

Lemma consume_match tokens tokenType c t :
  Parser.peek tokens c = Some t ->
  getTokenType t = tokenType ->
  Parser.consume tokens tokenType c = Return t (S c).
Proof.
  intros Hp Ht. unfold Parser.consume, Parser.check, Parser.advance, bind, ret.
  now rewrite Hp, Ht, TokenTypeFacts.eqb_refl, Hp.
Qed.

Lemma consume_mismatch tokens tokenType c t prev :
  Parser.peek tokens c = Some t ->
  getTokenType t <> tokenType ->
  Parser.previous tokens c = Some prev ->
  Parser.consume tokens tokenType c
  = Throw (SyntaxError
             (UnexpectedTokenExpected (getTokenType prev) tokenType)) c.
Proof.
  intros Hp Ht Hprev. apply TokenTypeFacts.eqb_neq in Ht.
  unfold Parser.consume, Parser.check, bind. now rewrite Hp, Ht, Hprev.
Qed.

Lemma last_cons {A} (x d : A) l : List.last (x :: l) d = List.last l x.
Proof.
  revert x d. induction l as [|y l IH]; intros x d; [reflexivity|].
  change (List.last (x :: y :: l) d) with (List.last (y :: l) d).
  now rewrite !IH.
Qed.

(** The loop over the parameters stops at the first token that is
    neither a symbol nor the closing bracket. *)
Lemma params_loop_throws tokens syms :
  forall pre prev bad rest k acc,
    Forall (fun t => getTokenType t = TokenType.Symbol) syms ->
    getTokenType bad <> TokenType.Symbol ->
    getTokenType bad <> TokenType.RightBracket ->
    List.length syms < k ->
    tokens = pre ++ prev :: syms ++ bad :: rest ->
    Parser.untilRightBracket tokens (Parser.consume tokens TokenType.Symbol)
      k acc (S (List.length pre))
    = Throw (SyntaxError
               (UnexpectedTokenExpected
                  (getTokenType (List.last syms prev)) TokenType.Symbol))
        (S (List.length pre) + List.length syms).
Proof.
  induction syms as [|s syms IH];
    intros pre prev bad rest k acc Hsyms Hbad Hrb Hk Htok;
    (destruct k as [|k]; [simpl in Hk; lia|]).
  - assert (Hp : Parser.peek tokens (S (List.length pre)) = Some bad)
      by (rewrite Htok; apply peek_app_1).
    rewrite (untilRightBracket_step _ _ _ _ _ _ Hp).
    apply TokenTypeFacts.eqb_neq in Hrb. rewrite Hrb. unfold bind.
    rewrite (consume_mismatch _ _ _ bad prev);
      [simpl; now rewrite Nat.add_0_r|assumption|assumption|].
    rewrite Htok. simpl. apply peek_app_0.
  - assert (Hp : Parser.peek tokens (S (List.length pre)) = Some s)
      by (rewrite Htok; apply peek_app_1).
    apply Forall_cons_iff in Hsyms as [Hs Hsyms].
    rewrite (untilRightBracket_step _ _ _ _ _ _ Hp), Hs.
    cbn [TokenType.eqb]. unfold bind at 1.
    rewrite (consume_match _ _ _ s Hp Hs).
    replace (S (S (List.length pre)))
      with (S (List.length (pre ++ [prev])))
      by (rewrite length_app; simpl; lia).
    rewrite (IH (pre ++ [prev]) s bad rest);
      [|assumption..|simpl in Hk; lia|rewrite Htok; list_eq].
    rewrite last_cons. f_equal. rewrite length_app. simpl. lia.
Qed.

Lemma lambda_bad_param_throws pre open kw open2 syms bad rest fuel :
  getTokenType open = TokenType.LeftBracket ->
  getTokenType kw = TokenType.Symbol ->
  getLexeme kw = "lambda" ->
  getTokenType open2 = TokenType.LeftBracket ->
  Forall (fun t => getTokenType t = TokenType.Symbol) syms ->
  getTokenType bad <> TokenType.Symbol ->
  getTokenType bad <> TokenType.RightBracket ->
  List.length syms + 2 <= fuel ->
  Parser.expression (pre ++ open :: kw :: open2 :: syms ++ bad :: rest) fuel
    (List.length pre)
  = Throw (SyntaxError
             (UnexpectedTokenExpected
                (getTokenType (List.last syms open2)) TokenType.Symbol))
      (List.length pre + 3 + List.length syms).
Proof.
  intros Ho Hk Hlex Ho2 Hsyms Hbad Hrb Hfuel.
  destruct fuel as [|n]; [lia|].
  set (tokens := pre ++ open :: kw :: open2 :: syms ++ bad :: rest).
  assert (H0 : Parser.peek tokens (List.length pre) = Some open)
    by apply peek_app_0.
  assert (H1 : Parser.peek tokens (S (List.length pre)) = Some kw)
    by apply peek_app_1.
  assert (H2 : Parser.peek tokens (S (S (List.length pre))) = Some open2).
  { subst tokens.
    replace (S (S (List.length pre))) with (List.length pre + 2) by lia.
    now rewrite peek_app. }
  simpl. unfold Parser.expressionBody, Parser.match_, Parser.check,
    Parser.peekToken, bind, ret.
  rewrite H0, Ho. cbn [TokenType.eqb]. rewrite H1, Hk. cbn [TokenType.eqb].
  rewrite H1, Hlex. cbn [String.eqb Ascii.eqb Bool.eqb].
  unfold Parser.lambda, Parser.advance. unfold bind at 1. unfold bind at 1.
  rewrite (consume_match _ _ _ open2 H2 Ho2). unfold bind at 1.
  replace (S (S (S (List.length pre))))
    with (S (List.length (pre ++ [open; kw]))) at 1
    by (rewrite length_app; simpl; lia).
  rewrite (params_loop_throws tokens syms (pre ++ [open; kw]) open2 bad rest);
    [|assumption|assumption|assumption|lia|subst tokens; list_eq].
  f_equal. rewrite length_app. simpl. lia.
Qed.

Section LambdaParams.

Variable tokens : list Token.


Lemma untilRightBracket_yields {A} (R : A -> bool) (item : M A) k acc c :
  (forall c', yields R item c') ->
  forallb R acc = true ->
  wp (Parser.untilRightBracket tokens item k acc) c
     (fun l _ => forallb R l = true) (fun _ _ => True) True.
Proof.
  intros Hitem Hacc. unfold yields in Hitem.
  apply wp_untilRightBracket
    with (Inv := fun _ acc' _ => forallb R acc' = true); auto.
  intros k' acc' c' Hacc'. wp_steps; auto.
  all: eapply wp_conseq; [apply Hitem|cbv beta; intros|auto..].
  all: rewrite forallb_app; simpl; rewrite Hacc';
    match goal with H : _ = true |- _ => now rewrite H end.
Qed.

Lemma consume_symbol_yields c :
  yields isSymbolToken (Parser.consume tokens TokenType.Symbol) c.
Proof.
  apply wp_consume. unfold isSymbolToken.
  destruct (Parser.peek tokens c) as [t|]; [|exact I].
  destruct (TokenType.eqb (getTokenType t) TokenType.Symbol); [reflexivity|].
  now destruct (Parser.previous tokens c).
Qed.

Lemma lambdaParamsAreSymbols_Let bindings body :
  lambdaParamsAreSymbols (Let bindings body)
  = forallb bindingValueOk bindings && forallb lambdaParamsAreSymbols body.
Proof. reflexivity. Qed.

Section Body.

Variables (e : M Expr) (n : nat).
Hypothesis He : forall c, yields lambdaParamsAreSymbols e c.

Local Ltac call_e :=
  eapply wp_conseq; [apply He|cbv beta; intros ? ? ?|auto..].

Local Ltac loop item_yields :=
  lazymatch goal with
  | |- wp (Parser.untilRightBracket _ _ _ _) _ _ _ _ =>
      eapply wp_conseq;
      [ apply untilRightBracket_yields;
        [intros ?; apply item_yields|reflexivity]
      | cbv beta; intros ? ? ?
      | auto.. ]
  end.

Local Ltac leaf :=
  try exact I; rewrite ?lambdaParamsAreSymbols_Let; simpl;
  repeat match goal with
    | H : _ = true |- _ => rewrite H; clear H
    end;
  reflexivity.

Lemma letBinding_yields c :
  yields bindingValueOk (Parser.letBinding tokens e) c.
Proof.
  unfold yields, Parser.letBinding. repeat first [wp_step | call_e]; leaf.
Qed.

Lemma expressionBody_yields c :
  yields lambdaParamsAreSymbols (Parser.expressionBody tokens e n) c.
Proof.
  unfold yields, Parser.expressionBody, Parser.if_, Parser.define,
    Parser.set, Parser.let_, Parser.lambda, Parser.call.
  repeat first
    [ wp_step | call_e
    | loop He | loop letBinding_yields | loop consume_symbol_yields ];
    leaf.
Qed.

End Body.

Lemma expression_yields fuel c :
  yields lambdaParamsAreSymbols (Parser.expression tokens fuel) c.
Proof.
  revert c. induction fuel as [|n IH]; intros c.
  - exact I.
  - simpl. now apply expressionBody_yields.
Qed.

Lemma parseLoop_yields fuel k acc c :
  forallb lambdaParamsAreSymbols acc = true ->
  wp (Parser.parseLoop tokens fuel k acc) c
     (fun l _ => forallb lambdaParamsAreSymbols l = true)
     (fun _ _ => True) True.
Proof.
  revert acc c. induction k as [|k IH]; intros acc c Hacc.
  - exact I.
  - simpl. unfold Parser.isAtEnd. apply wp_bind, wp_check.
    wp_steps; auto.
    all: eapply wp_conseq;
      [apply expression_yields|cbv beta; intros ? ? Hx|auto..].
    all: apply IH; rewrite forallb_app; simpl; now rewrite Hacc, Hx.
Qed.

End LambdaParams.

(** C5. A [lambda] form whose parameter list has, after any number of
    symbols, a token that is neither a symbol nor the closing bracket of
    the list makes the parser throw a [SyntaxError] at that token: as the
    first form of the input it makes [parse] throw, and anywhere else it
    makes [expression] throw once the parser reaches it.  Whatever the
    input, every [Lambda] node of a sequence that [parse] returns has
    only symbol tokens as params. *)
Theorem lambda_params_are_symbols open kw open2 syms bad rest :
  getTokenType open = TokenType.LeftBracket ->
  getTokenType kw = TokenType.Symbol ->
  getLexeme kw = "lambda" ->
  getTokenType open2 = TokenType.LeftBracket ->
  Forall (fun t => getTokenType t = TokenType.Symbol) syms ->
  getTokenType bad <> TokenType.Symbol ->
  getTokenType bad <> TokenType.RightBracket ->
  Parser.parse (open :: kw :: open2 :: syms ++ bad :: rest)
  = Throw (SyntaxError
             (UnexpectedTokenExpected
                (getTokenType (List.last syms open2)) TokenType.Symbol))
      (3 + List.length syms)
  /\ (forall pre fuel,
         List.length syms + 2 <= fuel ->
         Parser.expression
           (pre ++ open :: kw :: open2 :: syms ++ bad :: rest) fuel
           (List.length pre)
         = Throw (SyntaxError
                    (UnexpectedTokenExpected
                       (getTokenType (List.last syms open2))
                       TokenType.Symbol))
             (List.length pre + 3 + List.length syms))
  /\ (forall tokens fuel exprs c,
         Parser.parseWith tokens fuel = Return exprs c ->
         forallb lambdaParamsAreSymbols exprs = true).
Proof.
  intros Ho Hk Hlex Ho2 Hsyms Hbad Hrb. repeat split.
  - apply parse_first_throws with (t := open); [reflexivity|congruence|].
    apply (lambda_bad_param_throws [] open kw open2 syms bad rest);
      try assumption.
    simpl. rewrite length_app. simpl. lia.
  - intros pre fuel Hfuel. now apply lambda_bad_param_throws.
  - intros tokens fuel exprs c Hret.
    pose proof (parseLoop_yields tokens fuel fuel [] 0 eq_refl) as H.
    unfold wp in H. unfold Parser.parseWith in Hret. now rewrite Hret in H.
Qed.

Lemma lambda_params_are_symbols_witness :
  Parser.parse
    ([Tok.LeftBracket; Tok.Symbol "lambda"; Tok.LeftBracket]
       ++ [Tok.Symbol "x"]
       ++ [Tok.Number "1" 1; Tok.RightBracket; Tok.RightBracket; Tok.Eof])
  = Throw (SyntaxError
             (UnexpectedTokenExpected TokenType.Symbol TokenType.Symbol)) 4.
Proof.
  apply (lambda_params_are_symbols
           Tok.LeftBracket (Tok.Symbol "lambda") Tok.LeftBracket
           [Tok.Symbol "x"] (Tok.Number "1" 1)
           [Tok.RightBracket; Tok.RightBracket; Tok.Eof]);
    try reflexivity; try discriminate.
  repeat constructor.
Defined.

(** ** C8 and C9: termination and the bounds of the cursor *)

Lemma EofTerminated_safe tokens :
  EofTerminated tokens ->
  (forall fuel c,
      c <= List.length tokens - 1 ->
      safe (List.length tokens - 1) (Parser.expression tokens fuel) c)
  /\ (forall fuel k acc,
         wp (Parser.parseLoop tokens fuel k acc) 0
            (fun _ c' => c' = List.length tokens - 1)
            (fun e c' => c' <= List.length tokens - 1 /\ e <> TypeError)
            True).
Proof.
  intros (body & eof & -> & Htype & Hlex & Hbody).
  rewrite length_app. simpl.
  replace (List.length body + 1 - 1) with (List.length body) by lia.
  split.
  - intros fuel c Hc. now apply expression_safe.
  - intros fuel k acc. apply parseLoop_safe; auto. lia.
Qed.

(** C8. [parse] terminates on every token array: it never runs out of
    the fuel it is given, more fuel changes nothing, and every
    [expression] that returns has moved the cursor forward.  On an array
    that ends with the end-of-input token it returns a sequence with the
    cursor on that last token, or it throws a [SyntaxError]. *)
Theorem parse_terminates tokens :
  EofTerminated tokens ->
  ((exists exprs,
       Parser.parse tokens = Return exprs (List.length tokens - 1))
   \/ (exists message c,
          Parser.parse tokens = Throw (SyntaxError message) c))
  /\ (forall fuel,
         S (List.length tokens) <= fuel ->
         Parser.parseWith tokens fuel = Parser.parse tokens)
  /\ (forall fuel c e c',
         Parser.expression tokens fuel c = Return e c' -> c < c')
  /\ (forall fuel c,
         List.length tokens - c < fuel ->
         Parser.expression tokens fuel c <> OutOfFuel).
Proof.
  intros Heof. repeat split.
  - destruct (EofTerminated_safe tokens Heof) as [_ H].
    specialize (H (S (List.length tokens)) (S (List.length tokens)) []).
    pose proof (parse_not_OutOfFuel tokens) as Hfuel.
    unfold Parser.parse, Parser.parseWith, wp in *.
    destruct (Parser.parseLoop tokens _ _ [] 0) as [exprs c|e c|].
    + left. exists exprs. now subst.
    + right. destruct e as [message|]; [eauto|]. now destruct H.
    + contradiction.
  - apply parse_fuel_stable.
  - intros fuel c e c' Hret.
    pose proof (expression_advances tokens fuel c) as H.
    unfold advances, wp in H. rewrite Hret in H. lia.
  - intros fuel c Hfuel Hout.
    pose proof (expression_advances tokens fuel c) as H.
    unfold advances, wp in H. rewrite Hout in H. lia.
Qed.

Lemma parse_terminates_witness :
  (exists exprs,
      Parser.parse [Tok.LeftBracket; Tok.Symbol "f"; Tok.RightBracket;
                    Tok.Eof]
      = Return exprs 3)
  \/ (exists message c,
         Parser.parse [Tok.LeftBracket; Tok.Symbol "f"; Tok.RightBracket;
                       Tok.Eof]
         = Throw (SyntaxError message) c).
Proof.
  apply (parse_terminates
           [Tok.LeftBracket; Tok.Symbol "f"; Tok.RightBracket; Tok.Eof]).
  exists [Tok.LeftBracket; Tok.Symbol "f"; Tok.RightBracket], Tok.Eof.
  repeat split; try reflexivity.
  repeat constructor; discriminate.
Defined.

(** C9. On a token array whose last element is its only end-of-input
    token, the cursor never passes that token: from any cursor up to it,
    [expression] returns or throws with the cursor still up to it, and so
    does [parse]; since no step moves the cursor back, this bounds every
    cursor in between.  Every cursor up to that token has a token under
    it, and what is thrown is a [SyntaxError], never the [TypeError] of
    an access out of bounds. *)
Theorem cursor_stays_within_tokens tokens :
  EofTerminated tokens ->
  match Parser.parse tokens with
  | Return _ c => c = List.length tokens - 1
  | Throw e c => c <= List.length tokens - 1 /\ e <> TypeError
  | OutOfFuel => False
  end
  /\ (forall fuel c,
         c <= List.length tokens - 1 ->
         match Parser.expression tokens fuel c with
         | Return _ c' => c < c' <= List.length tokens - 1
         | Throw e c' => c <= c' <= List.length tokens - 1 /\ e <> TypeError
         | OutOfFuel => True
         end)
  /\ (forall c,
         c <= List.length tokens - 1 ->
         exists t, Parser.peek tokens c = Some t)
  /\ (forall c,
         0 < c <= List.length tokens - 1 ->
         exists t, Parser.previous tokens c = Some t).
Proof.
  intros Heof. destruct (EofTerminated_safe tokens Heof) as [Hexpr Hparse].
  assert (Hlen : 0 < List.length tokens).
  { destruct Heof as (body & eof & -> & _). rewrite length_app. simpl. lia. }
  repeat split.
  - specialize (Hparse (S (List.length tokens)) (S (List.length tokens)) []).
    pose proof (parse_not_OutOfFuel tokens) as Hfuel.
    unfold Parser.parse, Parser.parseWith, wp in *.
    now destruct (Parser.parseLoop tokens _ _ [] 0).
  - intros fuel c Hc. exact (Hexpr fuel c Hc).
  - intros c Hc. destruct (Parser.peek tokens c) as [t|] eqn:Hp; [eauto|].
    apply peek_None_ge in Hp. lia.
  - intros c Hc. destruct c as [|c]; [lia|]. simpl.
    destruct (nth_error tokens c) as [t|] eqn:Hp; [eauto|].
    apply nth_error_None in Hp. lia.
Qed.

Lemma cursor_stays_within_tokens_witness :
  match Parser.parse [Tok.LeftBracket; Tok.LeftBracket; Tok.RightBracket;
                      Tok.Eof] with
  | Return _ c => c = 3
  | Throw e c => c <= 3 /\ e <> TypeError
  | OutOfFuel => False
  end.
Proof.
  apply (cursor_stays_within_tokens
           [Tok.LeftBracket; Tok.LeftBracket; Tok.RightBracket; Tok.Eof]).
  exists [Tok.LeftBracket; Tok.LeftBracket; Tok.RightBracket], Tok.Eof.
  repeat split; try reflexivity.
  repeat constructor; discriminate.
Defined.

(** The condition on the lexeme of the end-of-input token cannot be
    dropped: [expression] looks at the lexeme alone, so an end-of-input
    token carrying the lexeme [if] would be stepped over. *)
Example eof_with_keyword_lexeme :
  Parser.parse [Tok.LeftBracket; mkToken TokenType.Eof "if" JsUndefined]
  = Throw TypeError 2.
Proof. reflexivity. Qed.

(** * More of the parser *)

(** ** Reading at a known position *)

Lemma atCursor_start tokens : atCursor tokens 0 tokens.
Proof. now exists []. Qed.

Lemma atCursor_app pre suffix : atCursor (pre ++ suffix) (List.length pre) suffix.
Proof. now exists pre. Qed.

Lemma atCursor_S tokens c t suffix :
  atCursor tokens c (t :: suffix) -> atCursor tokens (S c) suffix.
Proof.
  intros (pre & -> & <-). exists (pre ++ [t]).
  rewrite <- app_assoc, length_app. simpl. split; [reflexivity|lia].
Qed.

Lemma atCursor_skip tokens c xs suffix :
  atCursor tokens c (xs ++ suffix) ->
  atCursor tokens (c + List.length xs) suffix.
Proof.
  intros (pre & -> & <-). exists (pre ++ xs).
  now rewrite <- app_assoc, length_app.
Qed.

Lemma atCursor_peek tokens c t suffix :
  atCursor tokens c (t :: suffix) -> Parser.peek tokens c = Some t.
Proof. intros (pre & -> & <-). apply peek_app_0. Qed.

Lemma atCursor_nil tokens c :
  atCursor tokens c [] -> Parser.peek tokens c = None.
Proof.
  intros (pre & -> & <-). unfold Parser.peek. apply nth_error_None.
  rewrite app_nil_r. lia.
Qed.

Lemma atCursor_length tokens c suffix :
  atCursor tokens c suffix -> List.length tokens = c + List.length suffix.
Proof. intros (pre & -> & <-). apply length_app. Qed.

(** [bind] when the first method returns. *)
Lemma bind_Return {A B} (m : M A) (k : A -> M B) c a c' :
  m c = Return a c' -> bind m k c = k a c'.
Proof. unfold bind. now intros ->. Qed.

Lemma bind_Throw {A B} (m : M A) (k : A -> M B) c e c' :
  m c = Throw e c' -> bind m k c = Throw e c'.
Proof. unfold bind. now intros ->. Qed.

Section AtCursor.

Variables (tokens : list Token) (c : nat) (t : Token) (suffix : list Token).
Hypothesis Hat : atCursor tokens c (t :: suffix).

Lemma match_here tokenType :
  getTokenType t = tokenType ->
  Parser.match_ tokens tokenType c = Return true (S c).
Proof.
  intros Ht. unfold Parser.match_, Parser.check, bind.
  now rewrite (atCursor_peek _ _ _ _ Hat), Ht, TokenTypeFacts.eqb_refl.
Qed.

Lemma match_other tokenType :
  getTokenType t <> tokenType ->
  Parser.match_ tokens tokenType c = Return false c.
Proof.
  intros Ht. apply TokenTypeFacts.eqb_neq in Ht.
  unfold Parser.match_, Parser.check, bind.
  now rewrite (atCursor_peek _ _ _ _ Hat), Ht.
Qed.

Lemma consume_here tokenType :
  getTokenType t = tokenType ->
  Parser.consume tokens tokenType c = Return t (S c).
Proof. apply consume_match. exact (atCursor_peek _ _ _ _ Hat). Qed.

Lemma previous_here : Parser.previous tokens (S c) = Some t.
Proof. exact (atCursor_peek _ _ _ _ Hat). Qed.

Lemma advance_here : Parser.advance tokens c = Return (Some t) (S c).
Proof. unfold Parser.advance. now rewrite (atCursor_peek _ _ _ _ Hat). Qed.

Lemma peekToken_here : Parser.peekToken tokens c = Return t c.
Proof. unfold Parser.peekToken. now rewrite (atCursor_peek _ _ _ _ Hat). Qed.

Lemma isAtEnd_here :
  Parser.isAtEnd tokens c
  = Return (TokenType.eqb (getTokenType t) TokenType.Eof) c.
Proof.
  unfold Parser.isAtEnd, Parser.check.
  now rewrite (atCursor_peek _ _ _ _ Hat).
Qed.

End AtCursor.

(** After an opening bracket whose next token is not a closing bracket,
    [expression] dispatches on the lexeme of that token. *)
Lemma expression_dispatch tokens n c open head suffix :
  atCursor tokens c (open :: head :: suffix) ->
  getTokenType open = TokenType.LeftBracket ->
  getTokenType head <> TokenType.RightBracket ->
  Parser.expression tokens (S n) c
  = (if getLexeme head =? "if"
     then Parser.if_ tokens (Parser.expression tokens n)
     else if getLexeme head =? "define"
     then Parser.define tokens (Parser.expression tokens n)
     else if getLexeme head =? "set!"
     then Parser.set tokens (Parser.expression tokens n)
     else if getLexeme head =? "let"
     then Parser.let_ tokens (Parser.expression tokens n) n
     else if getLexeme head =? "lambda"
     then Parser.lambda tokens (Parser.expression tokens n) n
     else Parser.call tokens (Parser.expression tokens n) n) (S c).
Proof.
  intros Hat Ho Hh. pose proof (atCursor_S _ _ _ _ Hat) as Hat'.
  simpl. unfold Parser.expressionBody.
  rewrite (bind_Return _ _ _ _ _ (match_here _ _ _ _ Hat _ Ho)).
  rewrite (bind_Return _ _ _ _ _ (match_other _ _ _ _ Hat' _ Hh)).
  now rewrite (bind_Return _ _ _ _ _ (peekToken_here _ _ _ _ Hat')).
Qed.

(** ** Round trip over the whole grammar *)

(** The first token of a well-formed source tree starts an expression. *)
Lemma tokensOf_head s :
  wellFormedSource s = true ->
  exists head rest,
    tokensOf s = head :: rest
    /\ getTokenType head <> TokenType.RightBracket
    /\ getTokenType head <> TokenType.Eof
    /\ (sourceHeadIsKeyword s = false ->
        Parser.isSpecialForm (getLexeme head) = false).
Proof.
  destruct s; simpl; intros Hwf;
    try (eexists Tok.LeftBracket, _; repeat split; auto; discriminate).
  exists token, []. repeat split; auto;
    destruct (getTokenType token); discriminate.
Qed.

Lemma tokensOf_nonempty s : 0 < List.length (tokensOf s).
Proof. destruct s; simpl; lia. Qed.

(** Solves [m c = Return ?a ?c'] for a primitive at a known position. *)
Ltac here Hat :=
  first
    [ eapply match_here; [exact Hat|first [reflexivity|assumption]]
    | eapply match_other; [exact Hat|first [discriminate|congruence]]
    | eapply consume_here; [exact Hat|first [reflexivity|assumption]]
    | eapply advance_here; exact Hat
    | eapply peekToken_here; exact Hat ].

Ltac run tac := erewrite bind_Return; [|solve [tac]]; cbv beta iota.

Ltac stop tac := erewrite bind_Throw; [|solve [tac]]; try reflexivity.

Lemma forallb_cons_true {A} (f : A -> bool) x l :
  forallb f (x :: l) = true -> f x = true /\ forallb f l = true.
Proof. simpl. apply andb_prop. Qed.

Lemma match_head_false tokens c s rest tokenType :
  wellFormedSource s = true ->
  atCursor tokens c (tokensOf s ++ rest) ->
  tokenType = TokenType.RightBracket \/ tokenType = TokenType.Eof ->
  Parser.match_ tokens tokenType c = Return false c.
Proof.
  intros Hwf Hat Htt.
  destruct (tokensOf_head s Hwf) as (h & tl & Hfl & Hrb & Heof & _).
  rewrite Hfl in Hat. simpl in Hat.
  eapply match_other; [exact Hat|]. destruct Htt; congruence.
Qed.

Section RoundTrip.

Variable n : nat.

(** The statement for source trees of at most [n] tokens. *)
Hypothesis IH :
  forall s tokens c rest,
    wellFormedSource s = true ->
    List.length (tokensOf s) <= n ->
    atCursor tokens c (tokensOf s ++ rest) ->
    Parser.expression tokens n c
    = Return (treeOf s) (c + List.length (tokensOf s)).

Lemma sources_loop ss :
  forall tokens c close rest k acc,
    forallb wellFormedSource ss = true ->
    List.length (flat_map tokensOf ss) <= n ->
    List.length (flat_map tokensOf ss) < k ->
    getTokenType close = TokenType.RightBracket ->
    atCursor tokens c (flat_map tokensOf ss ++ close :: rest) ->
    Parser.untilRightBracket tokens (Parser.expression tokens n) k acc c
    = Return (acc ++ map treeOf ss)
        (S (c + List.length (flat_map tokensOf ss))).
Proof.
  induction ss as [|s ss IHss];
    intros tokens c close rest k acc Hwf Hn Hk Hclose Hat;
    (destruct k as [|k]; [simpl in Hk; lia|]);
    cbn [flat_map map List.length app forallb] in *;
    cbn [Parser.untilRightBracket].
  - run ltac:(here Hat). now rewrite app_nil_r, Nat.add_0_r.
  - apply andb_prop in Hwf as [Hs Hss].
    rewrite length_app in Hn, Hk. rewrite <- app_assoc in Hat.
    pose proof (tokensOf_nonempty s).
    run ltac:(eapply match_head_false; eauto).
    run ltac:(eapply IH; [exact Hs|lia|exact Hat]).
    rewrite (IHss tokens _ close rest);
      [|assumption|lia|lia|assumption|now apply atCursor_skip].
    rewrite <- app_assoc, length_app. simpl. f_equal. lia.
Qed.

Lemma sources_skip ss :
  forall tokens c rest k acc,
    forallb wellFormedSource ss = true ->
    List.length (flat_map tokensOf ss) <= n ->
    atCursor tokens c (flat_map tokensOf ss ++ rest) ->
    Parser.untilRightBracket tokens (Parser.expression tokens n)
      (List.length ss + k) acc c
    = Parser.untilRightBracket tokens (Parser.expression tokens n) k
        (acc ++ map treeOf ss) (c + List.length (flat_map tokensOf ss)).
Proof.
  induction ss as [|s ss IHss]; intros tokens c rest k acc Hwf Hn Hat;
    cbn [flat_map map List.length app forallb] in *.
  - now rewrite app_nil_r, Nat.add_0_r.
  - apply andb_prop in Hwf as [Hs Hss].
    rewrite length_app in Hn. rewrite <- app_assoc in Hat.
    cbn [Nat.add Parser.untilRightBracket].
    run ltac:(eapply match_head_false; eauto).
    run ltac:(eapply IH; [exact Hs|lia|exact Hat]).
    rewrite (IHss tokens _ rest); [|assumption|lia|now apply atCursor_skip].
    rewrite <- app_assoc, length_app. simpl. f_equal. lia.
Qed.

Lemma letBinding_here tokens c name value rest close :
  isSymbolToken name = true ->
  wellFormedSource value = true ->
  List.length (tokensOf value) <= n ->
  getTokenType close = TokenType.RightBracket ->
  atCursor tokens c
    (Tok.LeftBracket :: name :: tokensOf value ++ close :: rest) ->
  Parser.letBinding tokens (Parser.expression tokens n) c
  = Return (mkLetBindingNode name (treeOf value))
      (S (S (S c) + List.length (tokensOf value))).
Proof.
  intros Hname Hwf Hn Hclose Hat. unfold Parser.letBinding.
  apply TokenTypeFacts.eqb_eq in Hname.
  pose proof (atCursor_S _ _ _ _ Hat) as Hat1.
  pose proof (atCursor_S _ _ _ _ Hat1) as Hat2.
  pose proof (atCursor_skip _ _ _ _ Hat2) as Hat3.
  run ltac:(here Hat). run ltac:(here Hat1).
  run ltac:(eapply IH; eauto).
  run ltac:(here Hat3). reflexivity.
Qed.

Lemma bindings_loop bs :
  forall tokens c close rest k acc,
    forallb wellFormedBinding bs = true ->
    List.length (flat_map bindingTokens bs) <= n ->
    List.length (flat_map bindingTokens bs) < k ->
    getTokenType close = TokenType.RightBracket ->
    atCursor tokens c (flat_map bindingTokens bs ++ close :: rest) ->
    Parser.untilRightBracket tokens
      (Parser.letBinding tokens (Parser.expression tokens n)) k acc c
    = Return (acc ++ map bindingNode bs)
        (S (c + List.length (flat_map bindingTokens bs))).
Proof.
  induction bs as [|[name value] bs IHbs];
    intros tokens c close rest k acc Hwf Hn Hk Hclose Hat;
    (destruct k as [|k]; [simpl in Hk; lia|]).
  - cbn [flat_map map List.length app] in *. cbn [Parser.untilRightBracket].
    run ltac:(here Hat). now rewrite app_nil_r, Nat.add_0_r.
  - apply forallb_cons_true in Hwf as [Hb Hbs].
    apply andb_prop in Hb as [Hname Hvalue].
    cbn [flat_map bindingTokens] in *.
    rewrite length_app in Hn, Hk. simpl in Hn, Hk.
    rewrite length_app in Hn, Hk. simpl in Hn, Hk.
    rewrite <- app_assoc in Hat. simpl in Hat. rewrite <- app_assoc in Hat.
    simpl in Hat.
    cbn [Parser.untilRightBracket].
    run ltac:(here Hat).
    run ltac:(eapply letBinding_here with (close := Tok.RightBracket);
              [exact Hname|exact Hvalue|lia|reflexivity|exact Hat]).
    rewrite (IHbs tokens _ close rest);
      [|assumption|lia|lia|assumption|].
    + rewrite <- app_assoc. simpl. f_equal.
      rewrite length_app. simpl. rewrite length_app. simpl. lia.
    + do 2 apply atCursor_S in Hat. apply atCursor_skip in Hat.
      now apply atCursor_S in Hat.
Qed.

Lemma bindings_skip bs :
  forall tokens c rest k acc,
    forallb wellFormedBinding bs = true ->
    List.length (flat_map bindingTokens bs) <= n ->
    atCursor tokens c (flat_map bindingTokens bs ++ rest) ->
    Parser.untilRightBracket tokens
      (Parser.letBinding tokens (Parser.expression tokens n))
      (List.length bs + k) acc c
    = Parser.untilRightBracket tokens
        (Parser.letBinding tokens (Parser.expression tokens n)) k
        (acc ++ map bindingNode bs)
        (c + List.length (flat_map bindingTokens bs)).
Proof.
  induction bs as [|[name value] bs IHbs];
    intros tokens c rest k acc Hwf Hn Hat.
  - cbn [flat_map map List.length app Nat.add] in *.
    now rewrite app_nil_r, Nat.add_0_r.
  - apply forallb_cons_true in Hwf as [Hb Hbs].
    apply andb_prop in Hb as [Hname Hvalue].
    cbn [flat_map bindingTokens] in *.
    rewrite length_app in Hn. simpl in Hn.
    rewrite length_app in Hn. simpl in Hn.
    rewrite <- app_assoc in Hat. simpl in Hat. rewrite <- app_assoc in Hat.
    simpl in Hat.
    cbn [List.length Nat.add Parser.untilRightBracket].
    run ltac:(here Hat).
    run ltac:(eapply letBinding_here with (close := Tok.RightBracket);
              [exact Hname|exact Hvalue|lia|reflexivity|exact Hat]).
    rewrite (IHbs tokens _ rest); [|assumption|lia|].
    + rewrite <- app_assoc. simpl. f_equal.
      rewrite length_app. simpl. rewrite length_app. simpl. lia.
    + do 2 apply atCursor_S in Hat. apply atCursor_skip in Hat.
      now apply atCursor_S in Hat.
Qed.

End RoundTrip.

Lemma params_loop tokens ps :
  forall c close rest k acc,
    forallb isSymbolToken ps = true ->
    List.length ps < k ->
    getTokenType close = TokenType.RightBracket ->
    atCursor tokens c (ps ++ close :: rest) ->
    Parser.untilRightBracket tokens (Parser.consume tokens TokenType.Symbol)
      k acc c
    = Return (acc ++ ps) (S (c + List.length ps)).
Proof.
  induction ps as [|p ps IHps]; intros c close rest k acc Hwf Hk Hclose Hat;
    (destruct k as [|k]; [simpl in Hk; lia|]);
    cbn [List.length app forallb] in *; cbn [Parser.untilRightBracket].
  - run ltac:(here Hat). now rewrite app_nil_r, Nat.add_0_r.
  - apply andb_prop in Hwf as [Hp Hps].
    apply TokenTypeFacts.eqb_eq in Hp.
    run ltac:(eapply match_other; [exact Hat|congruence]).
    run ltac:(here Hat).
    rewrite (IHps _ close rest);
      [|assumption|lia|assumption|now apply atCursor_S in Hat].
    rewrite <- app_assoc. simpl. f_equal. lia.
Qed.

(** Brings the tokens at the cursor into the shape [t1 :: t2 :: xs ++ ...]. *)
Ltac normalise_at Hat :=
  cbn [tokensOf] in Hat;
  repeat (rewrite <- ?app_assoc in Hat; cbn [app] in Hat);
  fold bindingTokens in Hat.

Ltac finish :=
  unfold ret; cbn [tokensOf treeOf]; fold bindingTokens; fold bindingNode;
  repeat (rewrite ?length_app; cbn [List.length]);
  first [reflexivity | f_equal; first [reflexivity | lia]].

Lemma expression_roundtrip fuel :
  forall s tokens c rest,
    wellFormedSource s = true ->
    List.length (tokensOf s) <= fuel ->
    atCursor tokens c (tokensOf s ++ rest) ->
    Parser.expression tokens fuel c
    = Return (treeOf s) (c + List.length (tokensOf s)).
Proof.
  induction fuel as [|n IH]; intros s tokens c rest Hwf Hlen Hat.
  - pose proof (tokensOf_nonempty s). lia.
  - destruct s as [t| |callee args|test cons alt|name value|name value
                  |bindings body|params body];
      cbn [wellFormedSource] in Hwf; cbn [tokensOf] in Hlen;
      repeat (rewrite ?length_app in Hlen; cbn [List.length] in Hlen);
      normalise_at Hat.
    + (* atom *)
      pose proof (atCursor_peek _ _ _ _ Hat) as Hp.
      rewrite (expression_atom _ _ _ t Hp)
        by (destruct (getTokenType t); discriminate).
      rewrite (atom_outcome _ _ _ Hp). cbn [treeOf tokensOf List.length].
      rewrite Nat.add_1_r.
      destruct (getTokenType t); try discriminate; reflexivity.
    + (* the empty pair *)
      rewrite (expression_nil _ _ _ Tok.LeftBracket Tok.RightBracket);
        [finish| |reflexivity| |reflexivity].
      * exact (atCursor_peek _ _ _ _ Hat).
      * exact (atCursor_peek _ _ _ _ (atCursor_S _ _ _ _ Hat)).
    + (* call *)
      apply andb_prop in Hwf as [Hwf Hargs].
      apply andb_prop in Hwf as [Hkw Hcallee]. apply negb_true_iff in Hkw.
      destruct (tokensOf_head callee Hcallee)
        as (h & tl & Hfl & Hrb & _ & Hlex).
      specialize (Hlex Hkw).
      pose proof (atCursor_S _ _ _ _ Hat) as Hat1.
      pose proof (atCursor_skip _ _ _ _ Hat1) as Hat2.
      rewrite (expression_call _ _ _ Tok.LeftBracket h);
        [|exact (atCursor_peek _ _ _ _ Hat)|reflexivity
         |rewrite Hfl in Hat1; exact (atCursor_peek _ _ _ _ Hat1)
         |assumption|assumption].
      unfold Parser.call.
      run ltac:(eapply IH; [exact Hcallee|lia|exact Hat1]).
      run ltac:(eapply sources_loop with (close := Tok.RightBracket);
                [exact IH|exact Hargs|lia|lia|reflexivity|exact Hat2]).
      finish.
    + (* if *)
      apply andb_prop in Hwf as [Hwf Halt].
      apply andb_prop in Hwf as [Htest Hcons].
      rewrite (expression_dispatch _ _ _ _ _ _ Hat) by (discriminate || reflexivity).
      cbn [getLexeme Tok.Symbol String.eqb Ascii.eqb Bool.eqb].
      do 2 apply atCursor_S in Hat.
      pose proof (atCursor_skip _ _ _ _ Hat) as Hat1.
      pose proof (atCursor_skip _ _ _ _ Hat1) as Hat2.
      pose proof (atCursor_skip _ _ _ _ Hat2) as Hat3.
      unfold Parser.if_.
      run ltac:(unfold Parser.advance; reflexivity).
      run ltac:(eapply IH; [exact Htest|lia|exact Hat]).
      run ltac:(eapply IH; [exact Hcons|lia|exact Hat1]).
      run ltac:(eapply match_head_false; eauto).
      run ltac:(erewrite bind_Return;
                [|eapply IH; [exact Halt|lia|exact Hat2]]; reflexivity).
      run ltac:(here Hat3).
      finish.
    + (* define *)
      apply andb_prop in Hwf as [Hname Hvalue].
      apply TokenTypeFacts.eqb_eq in Hname.
      rewrite (expression_dispatch _ _ _ _ _ _ Hat) by (discriminate || reflexivity).
      cbn [getLexeme Tok.Symbol String.eqb Ascii.eqb Bool.eqb].
      do 2 apply atCursor_S in Hat.
      pose proof (atCursor_S _ _ _ _ Hat) as Hat1.
      pose proof (atCursor_skip _ _ _ _ Hat1) as Hat2.
      unfold Parser.define.
      run ltac:(unfold Parser.advance; reflexivity).
      run ltac:(here Hat).
      run ltac:(eapply IH; [exact Hvalue|lia|exact Hat1]).
      run ltac:(here Hat2).
      finish.
    + (* set! *)
      apply andb_prop in Hwf as [Hname Hvalue].
      apply TokenTypeFacts.eqb_eq in Hname.
      rewrite (expression_dispatch _ _ _ _ _ _ Hat) by (discriminate || reflexivity).
      cbn [getLexeme Tok.Symbol String.eqb Ascii.eqb Bool.eqb].
      do 2 apply atCursor_S in Hat.
      pose proof (atCursor_S _ _ _ _ Hat) as Hat1.
      pose proof (atCursor_skip _ _ _ _ Hat1) as Hat2.
      unfold Parser.set.
      run ltac:(unfold Parser.advance; reflexivity).
      run ltac:(here Hat).
      run ltac:(eapply IH; [exact Hvalue|lia|exact Hat1]).
      run ltac:(here Hat2).
      finish.
    + (* let *)
      apply andb_prop in Hwf as [Hbindings Hbody].
      fold wellFormedBinding in Hbindings. fold bindingTokens in Hlen.
      rewrite (expression_dispatch _ _ _ _ _ _ Hat) by (discriminate || reflexivity).
      cbn [getLexeme Tok.Symbol String.eqb Ascii.eqb Bool.eqb].
      do 2 apply atCursor_S in Hat.
      pose proof (atCursor_S _ _ _ _ Hat) as Hat1.
      pose proof (atCursor_S _ _ _ _ (atCursor_skip _ _ _ _ Hat1)) as Hat2.
      unfold Parser.let_.
      run ltac:(unfold Parser.advance; reflexivity).
      run ltac:(here Hat).
      run ltac:(eapply bindings_loop with (close := Tok.RightBracket);
                [exact IH|exact Hbindings|lia|lia|reflexivity|exact Hat1]).
      run ltac:(eapply sources_loop with (close := Tok.RightBracket);
                [exact IH|exact Hbody|lia|lia|reflexivity|exact Hat2]).
      finish.
    + (* lambda *)
      apply andb_prop in Hwf as [Hparams Hbody].
      rewrite (expression_dispatch _ _ _ _ _ _ Hat) by (discriminate || reflexivity).
      cbn [getLexeme Tok.Symbol String.eqb Ascii.eqb Bool.eqb].
      do 2 apply atCursor_S in Hat.
      pose proof (atCursor_S _ _ _ _ Hat) as Hat1.
      pose proof (atCursor_S _ _ _ _ (atCursor_skip _ _ _ _ Hat1)) as Hat2.
      unfold Parser.lambda.
      run ltac:(unfold Parser.advance; reflexivity).
      run ltac:(here Hat).
      run ltac:(eapply params_loop with (close := Tok.RightBracket);
                [exact Hparams|lia|reflexivity|exact Hat1]).
      run ltac:(eapply sources_loop with (close := Tok.RightBracket);
                [exact IH|exact Hbody|lia|lia|reflexivity|exact Hat2]).
      finish.
Qed.

(** ** Whole programs *)

(** Well-formed forms at the top level are parsed one after the other;
    the loop goes on behind them. *)
Lemma parseLoop_skip tokens fuel ss :
  forall c k acc rest,
    forallb wellFormedSource ss = true ->
    List.length (flat_map tokensOf ss) <= fuel ->
    atCursor tokens c (flat_map tokensOf ss ++ rest) ->
    Parser.parseLoop tokens fuel (List.length ss + k) acc c
    = Parser.parseLoop tokens fuel k (acc ++ map treeOf ss)
        (c + List.length (flat_map tokensOf ss)).
Proof.
  induction ss as [|s ss IHss]; intros c k acc rest Hwf Hfuel Hat;
    cbn [flat_map map List.length app forallb] in *.
  - now rewrite app_nil_r, Nat.add_0_r.
  - apply andb_prop in Hwf as [Hs Hss].
    rewrite length_app in Hfuel. rewrite <- app_assoc in Hat.
    destruct (tokensOf_head s Hs) as (h & tl & Hfl & _ & Hne & _).
    assert (Hp : Parser.peek tokens c = Some h).
    { rewrite Hfl in Hat. exact (atCursor_peek _ _ _ _ Hat). }
    apply TokenTypeFacts.eqb_neq in Hne.
    cbn [Nat.add]. rewrite parseLoop_step, Hp, Hne.
    run ltac:(eapply expression_roundtrip; [exact Hs|lia|exact Hat]).
    rewrite (IHss _ _ _ rest); [|assumption|lia|now apply atCursor_skip].
    rewrite <- app_assoc, length_app. simpl. f_equal. lia.
Qed.

Lemma flat_map_length_ge ss :
  List.length ss <= List.length (flat_map tokensOf ss).
Proof.
  induction ss as [|s ss IH]; simpl; [lia|].
  rewrite length_app. pose proof (tokensOf_nonempty s). lia.
Qed.

(** X1. Round trip over the whole grammar.  Wherever the tokens of a
    well-formed source tree start in the token array, with whatever
    before and after them, [expression] returns the node the tree stands
    for and leaves the cursor right behind its last token.  This covers
    atoms, the empty pair, calls and the special forms [if] (with
    alternative), [define], [set!], [let] and [lambda], nested to any
    depth, with arguments, bindings, parameters and bodies in source
    order and bindings of the same name both kept. *)
Theorem expression_parses_every_form s pre rest fuel :
  wellFormedSource s = true ->
  List.length (tokensOf s) <= fuel ->
  Parser.expression (pre ++ tokensOf s ++ rest) fuel (List.length pre)
  = Return (treeOf s) (List.length pre + List.length (tokensOf s)).
Proof.
  intros Hwf Hfuel. apply expression_roundtrip with (rest := rest); auto.
  apply atCursor_app.
Qed.

Lemma expression_parses_every_form_witness :
  Parser.expression
    ([Tok.LeftBracket]
       ++ tokensOf
            (SLet [(Tok.Symbol "x", SAtom (Tok.Number "1" 1));
                   (Tok.Symbol "x", SAtom (Tok.Number "2" 2))]
                  [SIf (SAtom (Tok.Symbol "x"))
                       (SLambda [Tok.Symbol "y"]
                                [SSet (Tok.Symbol "x")
                                      (SAtom (Tok.Symbol "y"))])
                       SNil])
       ++ [Tok.RightBracket; Tok.Eof]) 40 1
  = Return
      (Let [mkLetBindingNode (Tok.Symbol "x") (Literal (JsNumber 1));
            mkLetBindingNode (Tok.Symbol "x") (Literal (JsNumber 2))]
           [If (Symbol (Tok.Symbol "x"))
               (Lambda [Tok.Symbol "y"]
                       [Set_ (Tok.Symbol "x") (Symbol (Tok.Symbol "y"))])
               (Some (Literal Parser.NULL_VALUE))])
      31.
Proof.
  apply (expression_parses_every_form
           (SLet [(Tok.Symbol "x", SAtom (Tok.Number "1" 1));
                  (Tok.Symbol "x", SAtom (Tok.Number "2" 2))]
                 [SIf (SAtom (Tok.Symbol "x"))
                      (SLambda [Tok.Symbol "y"]
                               [SSet (Tok.Symbol "x")
                                     (SAtom (Tok.Symbol "y"))])
                      SNil])
           [Tok.LeftBracket] [Tok.RightBracket; Tok.Eof] 40).
  - reflexivity.
  - simpl. lia.
Defined.

Lemma parse_splits (tokens : list Token) ss :
  List.length (flat_map tokensOf ss) <= List.length tokens ->
  exists k,
    S (List.length tokens) = List.length ss + S k.
Proof.
  intros H. pose proof (flat_map_length_ge ss).
  exists (List.length tokens - List.length ss). lia.
Qed.

(** X2. A program, that is any number of well-formed forms followed by
    the end-of-input token, parses to the sequence of their nodes, one
    per form and in source order, with the cursor left on that token;
    whatever follows the token is not read.  With no form at all the
    result is the empty sequence. *)
Theorem parse_program ss eof rest :
  forallb wellFormedSource ss = true ->
  getTokenType eof = TokenType.Eof ->
  Parser.parse (flat_map tokensOf ss ++ eof :: rest)
  = Return (map treeOf ss) (List.length (flat_map tokensOf ss)).
Proof.
  intros Hwf Heof. unfold Parser.parse, Parser.parseWith.
  set (tokens := flat_map tokensOf ss ++ eof :: rest).
  assert (Hlen : List.length (flat_map tokensOf ss) <= List.length tokens)
    by (subst tokens; rewrite length_app; lia).
  destruct (parse_splits tokens ss Hlen) as [k Hk].
  rewrite Hk at 2.
  rewrite (parseLoop_skip _ _ ss 0 (S k) [] (eof :: rest));
    [|assumption|lia|apply atCursor_start].
  rewrite parseLoop_step.
  rewrite (atCursor_peek _ _ eof rest)
    by (apply atCursor_skip, atCursor_start).
  now rewrite Heof.
Qed.

Lemma parse_program_witness :
  Parser.parse
    (flat_map tokensOf
       [SDefine (Tok.Symbol "f")
                (SLambda [Tok.Symbol "a"]
                         [SCall (SAtom (Tok.Symbol "+"))
                                [SAtom (Tok.Symbol "a");
                                 SAtom (Tok.Number "1" 1)]]);
        SCall (SAtom (Tok.Symbol "f")) [SAtom (Tok.Number "2" 2)]]
     ++ Tok.Eof :: [Tok.RightBracket])
  = Return
      [Define (Tok.Symbol "f")
              (Lambda [Tok.Symbol "a"]
                      [Call (Symbol (Tok.Symbol "+"))
                            [Symbol (Tok.Symbol "a"); Literal (JsNumber 1)]]);
       Call (Symbol (Tok.Symbol "f")) [Literal (JsNumber 2)]]
      19.
Proof.
  apply (parse_program
           [SDefine (Tok.Symbol "f")
                    (SLambda [Tok.Symbol "a"]
                             [SCall (SAtom (Tok.Symbol "+"))
                                    [SAtom (Tok.Symbol "a");
                                     SAtom (Tok.Number "1" 1)]]);
            SCall (SAtom (Tok.Symbol "f")) [SAtom (Tok.Number "2" 2)]]
           Tok.Eof [Tok.RightBracket]); reflexivity.
Defined.

(** X3. After any number of well-formed forms, a closing bracket at the
    top level makes [parse] throw the [atom] error naming the
    right-bracket type, with the cursor on that bracket; the forms parsed
    before it are not returned. *)
Theorem stray_closing_bracket_throws ss close rest :
  forallb wellFormedSource ss = true ->
  getTokenType close = TokenType.RightBracket ->
  Parser.parse (flat_map tokensOf ss ++ close :: rest)
  = Throw (SyntaxError (UnexpectedToken TokenType.RightBracket))
      (List.length (flat_map tokensOf ss)).
Proof.
  intros Hwf Hclose. unfold Parser.parse, Parser.parseWith.
  set (tokens := flat_map tokensOf ss ++ close :: rest).
  assert (Hlen : List.length (flat_map tokensOf ss) <= List.length tokens)
    by (subst tokens; rewrite length_app; lia).
  destruct (parse_splits tokens ss Hlen) as [k Hk].
  rewrite Hk at 2.
  rewrite (parseLoop_skip _ _ ss 0 (S k) [] (close :: rest));
    [|assumption|lia|apply atCursor_start].
  assert (Hp : Parser.peek tokens (0 + List.length (flat_map tokensOf ss))
               = Some close)
    by (apply (atCursor_peek _ _ close rest), atCursor_skip, atCursor_start).
  rewrite parseLoop_step, Hp, Hclose. cbn [TokenType.eqb].
  apply bind_Throw.
  rewrite (expression_atom _ _ _ close Hp) by congruence.
  now rewrite (atom_outcome _ _ _ Hp), Hclose.
Qed.

Lemma stray_closing_bracket_throws_witness :
  Parser.parse
    (flat_map tokensOf [SCall (SAtom (Tok.Symbol "f")) []; SNil]
     ++ Tok.RightBracket :: [Tok.Eof])
  = Throw (SyntaxError (UnexpectedToken TokenType.RightBracket)) 5.
Proof.
  apply (stray_closing_bracket_throws
           [SCall (SAtom (Tok.Symbol "f")) []; SNil]
           Tok.RightBracket [Tok.Eof]); reflexivity.
Defined.

(** X4. [parse] relies on the end-of-input token: given well-formed
    forms and nothing after them (the empty array included), it reads
    past the last token and fails with the [TypeError] of a method call
    on [undefined], not with a [SyntaxError]. *)
Theorem missing_eof_is_a_type_error ss :
  forallb wellFormedSource ss = true ->
  Parser.parse (flat_map tokensOf ss)
  = Throw TypeError (List.length (flat_map tokensOf ss)).
Proof.
  intros Hwf. unfold Parser.parse, Parser.parseWith.
  set (tokens := flat_map tokensOf ss).
  destruct (parse_splits tokens ss (le_n _)) as [k Hk].
  rewrite Hk at 2.
  rewrite (parseLoop_skip _ _ ss 0 (S k) [] []);
    [|assumption|unfold tokens; lia|rewrite app_nil_r; apply atCursor_start].
  rewrite parseLoop_step.
  assert (Hp : Parser.peek tokens (0 + List.length tokens) = None)
    by (apply nth_error_None; simpl; lia).
  fold tokens. now rewrite Hp.
Qed.

Lemma missing_eof_is_a_type_error_witness :
  Parser.parse (flat_map tokensOf [SAtom (Tok.Symbol "x")])
  = Throw TypeError 1.
Proof.
  apply (missing_eof_is_a_type_error [SAtom (Tok.Symbol "x")]). reflexivity.
Defined.

(** ** What the special forms reject *)

Lemma consume_other tokens c prev t suffix tokenType :
  atCursor tokens c (prev :: t :: suffix) ->
  getTokenType t <> tokenType ->
  Parser.consume tokens tokenType (S c)
  = Throw (SyntaxError
             (UnexpectedTokenExpected (getTokenType prev) tokenType)) (S c).
Proof.
  intros Hat Ht. apply consume_mismatch with (t := t).
  - exact (atCursor_peek _ _ _ _ (atCursor_S _ _ _ _ Hat)).
  - assumption.
  - exact (previous_here _ _ _ _ Hat).
Qed.

(** X5. [define] and [set!] take a symbol as their target: when the
    token after the keyword is of any other type, [expression] throws
    the [consume] error for an expected symbol at that token.  The type
    the message names is the keyword's, the token before it. *)
Theorem define_and_set_need_a_symbol tokens n c open kw bad suffix :
  atCursor tokens c (open :: kw :: bad :: suffix) ->
  getTokenType open = TokenType.LeftBracket ->
  getTokenType kw <> TokenType.RightBracket ->
  getLexeme kw = "define" \/ getLexeme kw = "set!" ->
  getTokenType bad <> TokenType.Symbol ->
  Parser.expression tokens (S n) c
  = Throw (SyntaxError
             (UnexpectedTokenExpected (getTokenType kw) TokenType.Symbol))
      (S (S c)).
Proof.
  intros Hat Ho Hkw Hlex Hbad.
  rewrite (expression_dispatch _ _ _ _ _ _ Hat Ho Hkw).
  apply atCursor_S in Hat.
  destruct Hlex as [-> | ->]; cbn [String.eqb Ascii.eqb Bool.eqb];
    [unfold Parser.define|unfold Parser.set];
    run ltac:(unfold Parser.advance; reflexivity);
    stop ltac:(eapply consume_other; eauto).
Qed.

Lemma define_and_set_need_a_symbol_witness :
  Parser.expression
    [Tok.LeftBracket; Tok.Symbol "define"; Tok.Number "1" 1;
     Tok.Number "2" 2; Tok.RightBracket; Tok.Eof] 1 0
  = Throw (SyntaxError
             (UnexpectedTokenExpected TokenType.Symbol TokenType.Symbol)) 2.
Proof.
  apply (define_and_set_need_a_symbol
           [Tok.LeftBracket; Tok.Symbol "define"; Tok.Number "1" 1;
            Tok.Number "2" 2; Tok.RightBracket; Tok.Eof] 0 0
           Tok.LeftBracket (Tok.Symbol "define") (Tok.Number "1" 1)
           [Tok.Number "2" 2; Tok.RightBracket; Tok.Eof]).
  - apply atCursor_start.
  - reflexivity.
  - discriminate.
  - left. reflexivity.
  - discriminate.
Defined.

(** X6. [let] and [lambda] take a bracketed list right after the
    keyword: when the token there is not an opening bracket,
    [expression] throws the [consume] error for an expected left bracket
    at that token, naming the keyword's type. *)
Theorem let_and_lambda_need_a_list tokens n c open kw bad suffix :
  atCursor tokens c (open :: kw :: bad :: suffix) ->
  getTokenType open = TokenType.LeftBracket ->
  getTokenType kw <> TokenType.RightBracket ->
  getLexeme kw = "let" \/ getLexeme kw = "lambda" ->
  getTokenType bad <> TokenType.LeftBracket ->
  Parser.expression tokens (S n) c
  = Throw (SyntaxError
             (UnexpectedTokenExpected (getTokenType kw)
                                      TokenType.LeftBracket))
      (S (S c)).
Proof.
  intros Hat Ho Hkw Hlex Hbad.
  rewrite (expression_dispatch _ _ _ _ _ _ Hat Ho Hkw).
  apply atCursor_S in Hat.
  destruct Hlex as [-> | ->]; cbn [String.eqb Ascii.eqb Bool.eqb];
    [unfold Parser.let_|unfold Parser.lambda];
    run ltac:(unfold Parser.advance; reflexivity);
    stop ltac:(eapply consume_other; eauto).
Qed.

Lemma let_and_lambda_need_a_list_witness :
  Parser.expression
    [Tok.LeftBracket; Tok.Symbol "lambda"; Tok.Symbol "x";
     Tok.RightBracket; Tok.Eof] 1 0
  = Throw (SyntaxError
             (UnexpectedTokenExpected TokenType.Symbol
                                      TokenType.LeftBracket)) 2.
Proof.
  apply (let_and_lambda_need_a_list
           [Tok.LeftBracket; Tok.Symbol "lambda"; Tok.Symbol "x";
            Tok.RightBracket; Tok.Eof] 0 0
           Tok.LeftBracket (Tok.Symbol "lambda") (Tok.Symbol "x")
           [Tok.RightBracket; Tok.Eof]).
  - apply atCursor_start.
  - reflexivity.
  - discriminate.
  - right. reflexivity.
  - discriminate.
Defined.

(** The token before the cursor, once a non-empty run has been read. *)
Lemma previous_after tokens c xs rest d :
  atCursor tokens c (xs ++ rest) ->
  xs <> [] ->
  Parser.previous tokens (c + List.length xs) = Some (List.last xs d).
Proof.
  intros (pre & -> & <-) Hxs.
  destruct (exists_last Hxs) as (xs' & x & ->).
  rewrite last_last, length_app, Nat.add_assoc. simpl. rewrite Nat.add_1_r.
  simpl. rewrite <- app_assoc, <- length_app, app_assoc.
  rewrite <- (Nat.add_0_r (List.length (pre ++ xs'))).
  rewrite nth_error_app2 by lia.
  now replace (List.length (pre ++ xs') + 0 - List.length (pre ++ xs'))
    with 0 by lia.
Qed.

Lemma tokensOf_not_nil s : tokensOf s <> [].
Proof. pose proof (tokensOf_nonempty s). now destruct (tokensOf s). Qed.

Lemma consume_after tokens c xs bad rest tokenType d :
  atCursor tokens c (xs ++ bad :: rest) ->
  xs <> [] ->
  getTokenType bad <> tokenType ->
  Parser.consume tokens tokenType (c + List.length xs)
  = Throw (SyntaxError
             (UnexpectedTokenExpected (getTokenType (List.last xs d))
                                      tokenType))
      (c + List.length xs).
Proof.
  intros Hat Hxs Hbad. apply consume_mismatch with (t := bad).
  - exact (atCursor_peek _ _ _ _ (atCursor_skip _ _ _ _ Hat)).
  - assumption.
  - now apply previous_after with (rest := bad :: rest).
Qed.

(** X7. [define] and [set!] take one value and then the closing
    bracket: when the token after the value is not a closing bracket
    (a second value, or the end of input), [expression] throws the
    [consume] error for an expected right bracket at that token.  The
    type the message names is that of the last token of the value. *)
Theorem define_and_set_need_closing
    tokens n c open kw name value bad rest :
  atCursor tokens c (open :: kw :: name :: tokensOf value ++ bad :: rest) ->
  getTokenType open = TokenType.LeftBracket ->
  getTokenType kw <> TokenType.RightBracket ->
  getLexeme kw = "define" \/ getLexeme kw = "set!" ->
  getTokenType name = TokenType.Symbol ->
  wellFormedSource value = true ->
  List.length (tokensOf value) <= n ->
  getTokenType bad <> TokenType.RightBracket ->
  Parser.expression tokens (S n) c
  = Throw (SyntaxError
             (UnexpectedTokenExpected
                (getTokenType (List.last (tokensOf value) name))
                TokenType.RightBracket))
      (S (S (S c)) + List.length (tokensOf value)).
Proof.
  intros Hat Ho Hkw Hlex Hname Hvalue Hn Hbad.
  rewrite (expression_dispatch _ _ _ _ _ _ Hat Ho Hkw).
  do 2 apply atCursor_S in Hat.
  pose proof (atCursor_S _ _ _ _ Hat) as Hat1.
  destruct Hlex as [-> | ->]; cbn [String.eqb Ascii.eqb Bool.eqb];
    [unfold Parser.define|unfold Parser.set];
    run ltac:(unfold Parser.advance; reflexivity);
    run ltac:(here Hat);
    run ltac:(eapply expression_roundtrip; [exact Hvalue|lia|exact Hat1]);
    stop ltac:(eapply consume_after;
               [exact Hat1|apply tokensOf_not_nil|assumption]).
Qed.

Lemma define_and_set_need_closing_witness :
  Parser.expression
    [Tok.LeftBracket; Tok.Symbol "set!"; Tok.Symbol "x"; Tok.Number "1" 1;
     Tok.Eof] 2 0
  = Throw (SyntaxError
             (UnexpectedTokenExpected TokenType.Number
                                      TokenType.RightBracket)) 4.
Proof.
  apply (define_and_set_need_closing
           [Tok.LeftBracket; Tok.Symbol "set!"; Tok.Symbol "x";
            Tok.Number "1" 1; Tok.Eof] 1 0
           Tok.LeftBracket (Tok.Symbol "set!") (Tok.Symbol "x")
           (SAtom (Tok.Number "1" 1)) Tok.Eof []).
  - apply atCursor_start.
  - reflexivity.
  - discriminate.
  - right. reflexivity.
  - reflexivity.
  - reflexivity.
  - simpl. lia.
  - discriminate.
Defined.

(** X8. [if] takes at most three expressions: when the token after the
    alternative is not a closing bracket (a fourth expression, or the end
    of input), [expression] throws the [consume] error for an expected
    right bracket at that token, naming the type of the last token of
    the alternative. *)
Theorem if_needs_closing
    tokens n c open kw test consequent alternative bad rest :
  atCursor tokens c
    (open :: kw :: tokensOf test ++ tokensOf consequent
          ++ tokensOf alternative ++ bad :: rest) ->
  getTokenType open = TokenType.LeftBracket ->
  getTokenType kw <> TokenType.RightBracket ->
  getLexeme kw = "if" ->
  wellFormedSource test = true ->
  wellFormedSource consequent = true ->
  wellFormedSource alternative = true ->
  List.length (tokensOf test) <= n ->
  List.length (tokensOf consequent) <= n ->
  List.length (tokensOf alternative) <= n ->
  getTokenType bad <> TokenType.RightBracket ->
  Parser.expression tokens (S n) c
  = Throw (SyntaxError
             (UnexpectedTokenExpected
                (getTokenType (List.last (tokensOf alternative) kw))
                TokenType.RightBracket))
      (S (S c) + List.length (tokensOf test)
       + List.length (tokensOf consequent)
       + List.length (tokensOf alternative)).
Proof.
  intros Hat Ho Hkw Hlex Htest Hcons Halt Hn1 Hn2 Hn3 Hbad.
  rewrite (expression_dispatch _ _ _ _ _ _ Hat Ho Hkw), Hlex.
  cbn [String.eqb Ascii.eqb Bool.eqb].
  do 2 apply atCursor_S in Hat.
  pose proof (atCursor_skip _ _ _ _ Hat) as Hat1.
  pose proof (atCursor_skip _ _ _ _ Hat1) as Hat2.
  unfold Parser.if_.
  run ltac:(unfold Parser.advance; reflexivity).
  run ltac:(eapply expression_roundtrip; [exact Htest|lia|exact Hat]).
  run ltac:(eapply expression_roundtrip; [exact Hcons|lia|exact Hat1]).
  run ltac:(eapply match_head_false; eauto).
  run ltac:(erewrite bind_Return;
            [|eapply expression_roundtrip; [exact Halt|lia|exact Hat2]];
            reflexivity).
  stop ltac:(eapply consume_after;
             [exact Hat2|apply tokensOf_not_nil|assumption]).
Qed.

Lemma if_needs_closing_witness :
  Parser.expression
    [Tok.LeftBracket; Tok.Symbol "if"; Tok.Symbol "a"; Tok.Symbol "b";
     Tok.Symbol "c"; Tok.Number "4" 4; Tok.RightBracket; Tok.Eof] 2 0
  = Throw (SyntaxError
             (UnexpectedTokenExpected TokenType.Symbol
                                      TokenType.RightBracket)) 5.
Proof.
  apply (if_needs_closing
           [Tok.LeftBracket; Tok.Symbol "if"; Tok.Symbol "a";
            Tok.Symbol "b"; Tok.Symbol "c"; Tok.Number "4" 4;
            Tok.RightBracket; Tok.Eof] 1 0
           Tok.LeftBracket (Tok.Symbol "if")
           (SAtom (Tok.Symbol "a")) (SAtom (Tok.Symbol "b"))
           (SAtom (Tok.Symbol "c")) (Tok.Number "4" 4)
           [Tok.RightBracket; Tok.Eof]);
    try reflexivity; try discriminate; try (simpl; lia).
  apply atCursor_start.
Defined.

Lemma expression_at_eof tokens n c eof rest :
  atCursor tokens c (eof :: rest) ->
  getTokenType eof = TokenType.Eof ->
  Parser.expression tokens (S n) c
  = Throw (SyntaxError (UnexpectedToken TokenType.Eof)) c.
Proof.
  intros Hat Heof. pose proof (atCursor_peek _ _ _ _ Hat) as Hp.
  rewrite (expression_atom _ _ _ eof Hp) by congruence.
  now rewrite (atom_outcome _ _ _ Hp), Heof.
Qed.

(** A loop over expressions that meets the end of input. *)
Lemma sources_hit_eof tokens n ss c eof rest k acc :
  forallb wellFormedSource ss = true ->
  List.length (flat_map tokensOf ss) <= S n ->
  List.length ss < k ->
  getTokenType eof = TokenType.Eof ->
  atCursor tokens c (flat_map tokensOf ss ++ eof :: rest) ->
  Parser.untilRightBracket tokens (Parser.expression tokens (S n)) k acc c
  = Throw (SyntaxError (UnexpectedToken TokenType.Eof))
      (c + List.length (flat_map tokensOf ss)).
Proof.
  intros Hwf Hn Hk Heof Hat.
  replace k with (List.length ss + S (k - S (List.length ss))) by lia.
  rewrite (sources_skip (S n) (expression_roundtrip (S n)) ss tokens c
             (eof :: rest)); [|assumption..].
  apply atCursor_skip in Hat. cbn [Parser.untilRightBracket].
  run ltac:(eapply match_other; [exact Hat|congruence]).
  stop ltac:(eapply expression_at_eof; eauto).
Qed.

Lemma removelast_closing (xs : list Token) (close : Token) :
  removelast (xs ++ [close]) = xs.
Proof. apply removelast_last. Qed.

(** X9. A call, a [let] or a [lambda] whose closing bracket is missing
    because the input ends there: the loop over the arguments or the
    body meets the end-of-input token, and [expression] throws the
    [atom] error naming the end-of-input type, with the cursor on that
    token. *)
Theorem unclosed_form_hits_end_of_input s tokens c eof rest fuel :
  wellFormedSource s = true ->
  endsWithLoop s = true ->
  List.length (tokensOf s) <= fuel ->
  getTokenType eof = TokenType.Eof ->
  atCursor tokens c (removelast (tokensOf s) ++ eof :: rest) ->
  Parser.expression tokens fuel c
  = Throw (SyntaxError (UnexpectedToken TokenType.Eof))
      (c + List.length (removelast (tokensOf s))).
Proof.
  intros Hwf Hloop Hfuel Heof Hat.
  destruct fuel as [|[|n]];
    [pose proof (tokensOf_nonempty s); lia
    |destruct s; try discriminate; simpl in Hfuel;
     repeat (rewrite ?length_app in Hfuel; simpl in Hfuel); lia|].
  destruct s as [| |callee args| | | |bindings body|params body];
    try discriminate; cbn [wellFormedSource] in Hwf.
  - (* call *)
    replace (tokensOf (SCall callee args))
      with ((Tok.LeftBracket :: tokensOf callee ++ flat_map tokensOf args)
            ++ [Tok.RightBracket]) in * by list_eq.
    rewrite removelast_closing in *.
    repeat (rewrite ?length_app in Hfuel; simpl in Hfuel).
    repeat (rewrite <- ?app_assoc in Hat; cbn [app] in Hat).
    apply andb_prop in Hwf as [Hwf Hargs].
    apply andb_prop in Hwf as [Hkw Hcallee]. apply negb_true_iff in Hkw.
    destruct (tokensOf_head callee Hcallee)
      as (h & tl & Hfl & Hrb & _ & Hlex).
    specialize (Hlex Hkw).
    pose proof (atCursor_S _ _ _ _ Hat) as Hat1.
    pose proof (atCursor_skip _ _ _ _ Hat1) as Hat2.
    pose proof (flat_map_length_ge args).
    rewrite (expression_call _ _ _ Tok.LeftBracket h);
      [|exact (atCursor_peek _ _ _ _ Hat)|reflexivity
       |rewrite Hfl in Hat1; exact (atCursor_peek _ _ _ _ Hat1)
       |assumption|assumption].
    unfold Parser.call.
    run ltac:(eapply expression_roundtrip; [exact Hcallee|lia|exact Hat1]).
    stop ltac:(eapply sources_hit_eof; [exact Hargs|lia|lia|eauto|exact Hat2]).
    f_equal. simpl. rewrite length_app. lia.
  - (* let *)
    replace (tokensOf (SLet bindings body))
      with ((Tok.LeftBracket :: Tok.Symbol "let" :: Tok.LeftBracket
               :: flat_map bindingTokens bindings
               ++ Tok.RightBracket :: flat_map tokensOf body)
            ++ [Tok.RightBracket]) in * by list_eq.
    rewrite removelast_closing in *.
    repeat (rewrite ?length_app in Hfuel; simpl in Hfuel).
    repeat (rewrite <- ?app_assoc in Hat; cbn [app] in Hat).
    apply andb_prop in Hwf as [Hbindings Hbody].
    fold wellFormedBinding in Hbindings.
    rewrite (expression_dispatch _ _ _ _ _ _ Hat)
      by (discriminate || reflexivity).
    cbn [getLexeme Tok.Symbol String.eqb Ascii.eqb Bool.eqb].
    do 2 apply atCursor_S in Hat.
    pose proof (atCursor_S _ _ _ _ Hat) as Hat1.
    pose proof (atCursor_S _ _ _ _ (atCursor_skip _ _ _ _ Hat1)) as Hat2.
    pose proof (flat_map_length_ge body).
    unfold Parser.let_.
    run ltac:(unfold Parser.advance; reflexivity).
    run ltac:(here Hat).
    run ltac:(eapply bindings_loop with (close := Tok.RightBracket);
              [exact (expression_roundtrip (S n))|exact Hbindings
              |lia|lia|reflexivity|exact Hat1]).
    stop ltac:(eapply sources_hit_eof; [exact Hbody|lia|lia|eauto|exact Hat2]).
    f_equal. simpl. rewrite length_app. simpl. lia.
  - (* lambda *)
    replace (tokensOf (SLambda params body))
      with ((Tok.LeftBracket :: Tok.Symbol "lambda" :: Tok.LeftBracket
               :: params
               ++ Tok.RightBracket :: flat_map tokensOf body)
            ++ [Tok.RightBracket]) in * by list_eq.
    rewrite removelast_closing in *.
    repeat (rewrite ?length_app in Hfuel; simpl in Hfuel).
    repeat (rewrite <- ?app_assoc in Hat; cbn [app] in Hat).
    apply andb_prop in Hwf as [Hparams Hbody].
    rewrite (expression_dispatch _ _ _ _ _ _ Hat)
      by (discriminate || reflexivity).
    cbn [getLexeme Tok.Symbol String.eqb Ascii.eqb Bool.eqb].
    do 2 apply atCursor_S in Hat.
    pose proof (atCursor_S _ _ _ _ Hat) as Hat1.
    pose proof (atCursor_S _ _ _ _ (atCursor_skip _ _ _ _ Hat1)) as Hat2.
    pose proof (flat_map_length_ge body).
    unfold Parser.lambda.
    run ltac:(unfold Parser.advance; reflexivity).
    run ltac:(here Hat).
    run ltac:(eapply params_loop with (close := Tok.RightBracket);
              [exact Hparams|lia|reflexivity|exact Hat1]).
    stop ltac:(eapply sources_hit_eof; [exact Hbody|lia|lia|eauto|exact Hat2]).
    f_equal. simpl. rewrite length_app. simpl. lia.
Qed.

Lemma unclosed_form_hits_end_of_input_witness :
  Parser.expression
    [Tok.LeftBracket; Tok.Symbol "f"; Tok.Symbol "a"; Tok.Eof] 4 0
  = Throw (SyntaxError (UnexpectedToken TokenType.Eof)) 3.
Proof.
  apply (unclosed_form_hits_end_of_input
           (SCall (SAtom (Tok.Symbol "f")) [SAtom (Tok.Symbol "a")])
           [Tok.LeftBracket; Tok.Symbol "f"; Tok.Symbol "a"; Tok.Eof]
           0 Tok.Eof [] 4).
  - reflexivity.
  - reflexivity.
  - simpl. lia.
  - reflexivity.
  - apply atCursor_start.
Defined.

Lemma bindings_length_ge (bs : list (Token * Source)) :
  List.length bs <= List.length (flat_map bindingTokens bs).
Proof.
  induction bs as [|[name value] bs IH]; simpl; [lia|].
  rewrite length_app. simpl. lia.
Qed.

Lemma last_bindings b bs d :
  List.last (flat_map bindingTokens (b :: bs)) d = Tok.RightBracket.
Proof.
  destruct (exists_last (l := b :: bs) ltac:(discriminate))
    as (bs' & [name value] & ->).
  rewrite flat_map_app.
  replace (flat_map bindingTokens [(name, value)])
    with ((Tok.LeftBracket :: name :: tokensOf value) ++ [Tok.RightBracket])
    by list_eq.
  rewrite app_assoc. apply last_last.
Qed.

(** In a [let] whose first bindings are well formed, the error of the
    first binding that does not parse is the error of the form. *)
Lemma let_binding_error tokens n c kw bs bad rest e c' :
  atCursor tokens c
    (Tok.LeftBracket :: kw :: Tok.LeftBracket
       :: flat_map bindingTokens bs ++ bad :: rest) ->
  getTokenType kw <> TokenType.RightBracket ->
  getLexeme kw = "let" ->
  forallb wellFormedBinding bs = true ->
  List.length (flat_map bindingTokens bs) < n ->
  getTokenType bad <> TokenType.RightBracket ->
  Parser.letBinding tokens (Parser.expression tokens n)
    (S (S (S c)) + List.length (flat_map bindingTokens bs))
  = Throw e c' ->
  Parser.expression tokens (S n) c = Throw e c'.
Proof.
  intros Hat Hkw Hlex Hbs Hn Hbad Hthrow.
  pose proof (bindings_length_ge bs) as Hk.
  rewrite (expression_dispatch _ _ _ _ _ _ Hat) by (assumption || reflexivity).
  rewrite Hlex. cbn [String.eqb Ascii.eqb Bool.eqb].
  do 2 apply atCursor_S in Hat.
  pose proof (atCursor_S _ _ _ _ Hat) as Hat1.
  pose proof (atCursor_skip _ _ _ _ Hat1) as Hat2.
  unfold Parser.let_.
  run ltac:(unfold Parser.advance; reflexivity).
  run ltac:(here Hat).
  apply bind_Throw.
  replace n with (List.length bs + S (n - S (List.length bs))) at 2 by lia.
  rewrite (bindings_skip n (expression_roundtrip n) bs tokens _
             (bad :: rest)); [|assumption|lia|assumption].
  cbn [Parser.untilRightBracket].
  run ltac:(eapply match_other; [exact Hat2|congruence]).
  now apply bind_Throw.
Qed.

(** X10. Each binding of [let] starts with an opening bracket.  After
    any number of well-formed bindings, a token that is neither the
    closing bracket of the list nor an opening bracket makes
    [expression] throw the [consume] error for an expected left bracket
    at that token.  The type the message names is that of the token
    before: the closing bracket of the last binding, or the opening
    bracket of the list when there is none. *)
Theorem let_binding_needs_a_bracket tokens n c kw bs bad rest :
  atCursor tokens c
    (Tok.LeftBracket :: kw :: Tok.LeftBracket
       :: flat_map bindingTokens bs ++ bad :: rest) ->
  getTokenType kw <> TokenType.RightBracket ->
  getLexeme kw = "let" ->
  forallb wellFormedBinding bs = true ->
  List.length (flat_map bindingTokens bs) < n ->
  getTokenType bad <> TokenType.RightBracket ->
  getTokenType bad <> TokenType.LeftBracket ->
  Parser.expression tokens (S n) c
  = Throw (SyntaxError
             (UnexpectedTokenExpected
                (match bs with
                 | [] => TokenType.LeftBracket
                 | _ :: _ => TokenType.RightBracket
                 end) TokenType.LeftBracket))
      (S (S (S c)) + List.length (flat_map bindingTokens bs)).
Proof.
  intros Hat Hkw Hlex Hbs Hn Hbad Hlb.
  apply (let_binding_error _ _ _ _ _ _ _ _ _ Hat Hkw Hlex Hbs Hn Hbad).
  unfold Parser.letBinding. apply bind_Throw.
  do 2 apply atCursor_S in Hat.
  destruct bs as [|b bs].
  - simpl in *. rewrite Nat.add_0_r.
    now apply consume_other with (prev := Tok.LeftBracket)
                                 (t := bad) (suffix := rest).
  - apply atCursor_S in Hat.
    rewrite (consume_after _ _ _ bad rest _ Tok.LeftBracket Hat);
      [|destruct b; discriminate|assumption].
    now rewrite last_bindings.
Qed.

Lemma let_binding_needs_a_bracket_witness :
  Parser.expression
    [Tok.LeftBracket; Tok.Symbol "let"; Tok.LeftBracket;
     Tok.LeftBracket; Tok.Symbol "x"; Tok.Number "1" 1; Tok.RightBracket;
     Tok.Symbol "y"; Tok.RightBracket; Tok.RightBracket; Tok.Eof] 6 0
  = Throw (SyntaxError
             (UnexpectedTokenExpected TokenType.RightBracket
                                      TokenType.LeftBracket)) 7.
Proof.
  apply (let_binding_needs_a_bracket
           [Tok.LeftBracket; Tok.Symbol "let"; Tok.LeftBracket;
            Tok.LeftBracket; Tok.Symbol "x"; Tok.Number "1" 1;
            Tok.RightBracket;
            Tok.Symbol "y"; Tok.RightBracket; Tok.RightBracket; Tok.Eof]
           5 0 (Tok.Symbol "let")
           [(Tok.Symbol "x", SAtom (Tok.Number "1" 1))]
           (Tok.Symbol "y") [Tok.RightBracket; Tok.RightBracket; Tok.Eof]);
    try reflexivity; try discriminate.
  - apply atCursor_start.
  - simpl. lia.
Defined.

(** X11. The name of a binding of [let] is a symbol: after any number
    of well-formed bindings, an opening bracket followed by a token of
    another type makes [expression] throw the [consume] error for an
    expected symbol at that token, naming the left-bracket type of the
    token before it. *)
Theorem let_binding_needs_a_name tokens n c kw bs open bad rest :
  atCursor tokens c
    (Tok.LeftBracket :: kw :: Tok.LeftBracket
       :: flat_map bindingTokens bs ++ open :: bad :: rest) ->
  getTokenType kw <> TokenType.RightBracket ->
  getLexeme kw = "let" ->
  forallb wellFormedBinding bs = true ->
  List.length (flat_map bindingTokens bs) < n ->
  getTokenType open = TokenType.LeftBracket ->
  getTokenType bad <> TokenType.Symbol ->
  Parser.expression tokens (S n) c
  = Throw (SyntaxError
             (UnexpectedTokenExpected TokenType.LeftBracket
                                      TokenType.Symbol))
      (S (S (S (S c)) + List.length (flat_map bindingTokens bs))).
Proof.
  intros Hat Hkw Hlex Hbs Hn Hopen Hbad.
  apply (let_binding_error _ _ _ _ _ _ _ _ _ Hat Hkw Hlex Hbs Hn);
    [congruence|].
  do 3 apply atCursor_S in Hat. apply atCursor_skip in Hat.
  unfold Parser.letBinding.
  run ltac:(here Hat).
  apply bind_Throw. rewrite <- Hopen.
  now apply consume_other with (t := bad) (suffix := rest).
Qed.

Lemma let_binding_needs_a_name_witness :
  Parser.expression
    [Tok.LeftBracket; Tok.Symbol "let"; Tok.LeftBracket;
     Tok.LeftBracket; Tok.Number "1" 1; Tok.Number "2" 2; Tok.RightBracket;
     Tok.RightBracket; Tok.RightBracket; Tok.Eof] 2 0
  = Throw (SyntaxError
             (UnexpectedTokenExpected TokenType.LeftBracket
                                      TokenType.Symbol)) 4.
Proof.
  apply (let_binding_needs_a_name
           [Tok.LeftBracket; Tok.Symbol "let"; Tok.LeftBracket;
            Tok.LeftBracket; Tok.Number "1" 1; Tok.Number "2" 2;
            Tok.RightBracket;
            Tok.RightBracket; Tok.RightBracket; Tok.Eof]
           1 0 (Tok.Symbol "let") [] Tok.LeftBracket (Tok.Number "1" 1)
           [Tok.Number "2" 2; Tok.RightBracket; Tok.RightBracket;
            Tok.RightBracket; Tok.Eof]);
    try reflexivity; try discriminate.
  - apply atCursor_start.
  - simpl. lia.
Defined.

(** ** The tree holds nothing but what the input holds *)

Section FromInput.

Variable tokens : list Token.

Lemma peek_In c t : Parser.peek tokens c = Some t -> In t tokens.
Proof. apply nth_error_In. Qed.

Lemma untilRightBracket_yieldsAll {A X} (P : X -> Prop) (f : A -> list X)
    (item : M A) k acc c :
  (forall c', yieldsAll P f item c') ->
  Forall P (flat_map f acc) ->
  yieldsAll P (flat_map f) (Parser.untilRightBracket tokens item k acc) c.
Proof.
  intros Hitem Hacc. unfold yieldsAll in *.
  apply wp_untilRightBracket
    with (Inv := fun _ acc' _ => Forall P (flat_map f acc')); auto.
  intros k' acc' c' Hacc'. wp_steps; auto.
  all: eapply wp_conseq; [apply Hitem|cbv beta; intros|auto..].
  all: rewrite flat_map_app; apply Forall_app; split; [assumption|].
  all: simpl; now rewrite app_nil_r.
Qed.

Lemma consume_symbol_yieldsAll c :
  yieldsAll (fromInput tokens) (fun t => [TokenLeaf t])
    (Parser.consume tokens TokenType.Symbol) c.
Proof.
  unfold yieldsAll. apply wp_consume.
  destruct (Parser.peek tokens c) as [t|] eqn:Hp; [|exact I].
  destruct (TokenTypeFacts.eqb_spec (getTokenType t) TokenType.Symbol).
  - repeat constructor; [now apply peek_In with (c := c)|assumption].
  - now destruct (Parser.previous tokens c).
Qed.

Lemma leaves_Let bindings body :
  leaves (Let bindings body)
  = flat_map bindingLeaves bindings ++ flat_map leaves body.
Proof. reflexivity. Qed.

Lemma flat_map_singleton {A B} (g : A -> B) l :
  flat_map (fun x => [g x]) l = map g l.
Proof. induction l as [|x l IH]; simpl; [reflexivity|now rewrite IH]. Qed.

Lemma leaves_Lambda params body :
  leaves (Lambda params body)
  = flat_map (fun t => [TokenLeaf t]) params ++ flat_map leaves body.
Proof. now rewrite flat_map_singleton. Qed.

Section Body.

Variables (e : M Expr) (n : nat).
Hypothesis He : forall c, yieldsAll (fromInput tokens) leaves e c.

Local Ltac call_e :=
  eapply wp_conseq; [apply He|cbv beta; intros ? ? ?|auto..].

Local Ltac loop f item_yields :=
  lazymatch goal with
  | |- wp (Parser.untilRightBracket _ _ _ _) _ _ _ _ =>
      eapply wp_conseq;
      [ apply (untilRightBracket_yieldsAll (fromInput tokens) f);
        [intros ?; apply item_yields|constructor]
      | cbv beta; intros ? ? ?
      | auto.. ]
  end.

Local Ltac leaf :=
  try exact I;
  rewrite ?leaves_Let, ?leaves_Lambda; cbn [leaves bindingLeaves];
  repeat match goal with
    | |- Forall _ (_ ++ _) => apply Forall_app; split
    | |- Forall _ (_ :: _) => constructor
    | |- Forall _ [] => constructor
    | |- fromInput _ (TokenLeaf _) => split
    | |- In _ _ => eapply peek_In; eassumption
    | H : Parser.peek _ ?c = Some ?t |- fromInput _ (ValueLeaf (getLiteral ?t)) =>
        right; exists t; repeat split;
        [eapply peek_In; exact H
        |match goal with Ht : getTokenType t = _ |- _ => now rewrite Ht end]
    | |- fromInput _ (ValueLeaf Parser.NULL_VALUE) => now left
    end;
  first [assumption | congruence].

Lemma letBinding_yieldsAll c :
  yieldsAll (fromInput tokens) bindingLeaves (Parser.letBinding tokens e) c.
Proof.
  unfold yieldsAll, Parser.letBinding.
  repeat first [wp_step | call_e]; leaf.
Qed.

Lemma expressionBody_yieldsAll c :
  yieldsAll (fromInput tokens) leaves (Parser.expressionBody tokens e n) c.
Proof.
  unfold yieldsAll, Parser.expressionBody, Parser.if_, Parser.define,
    Parser.set, Parser.let_, Parser.lambda, Parser.call.
  repeat first
    [ wp_step | call_e
    | loop leaves He | loop bindingLeaves letBinding_yieldsAll
    | loop (fun t : Token => [TokenLeaf t]) consume_symbol_yieldsAll ];
    leaf.
Qed.

End Body.

Lemma expression_yieldsAll fuel c :
  yieldsAll (fromInput tokens) leaves (Parser.expression tokens fuel) c.
Proof.
  revert c. induction fuel as [|n IH]; intros c.
  - exact I.
  - simpl. now apply expressionBody_yieldsAll.
Qed.

Lemma parseLoop_yieldsAll fuel k acc c :
  Forall (fromInput tokens) (flat_map leaves acc) ->
  yieldsAll (fromInput tokens) (flat_map leaves)
    (Parser.parseLoop tokens fuel k acc) c.
Proof.
  revert acc c. induction k as [|k IH]; intros acc c Hacc.
  - exact I.
  - unfold yieldsAll in *. simpl. unfold Parser.isAtEnd.
    apply wp_bind, wp_check. wp_steps; auto.
    all: eapply wp_conseq;
      [apply expression_yieldsAll|cbv beta; intros ? ? Hx|auto..].
    all: apply IH; rewrite flat_map_app; apply Forall_app; split;
      [assumption|simpl; now rewrite app_nil_r].
Qed.

End FromInput.

(** X12. The parser invents nothing.  In every sequence that [parse]
    returns, each token held by a node (in a [Symbol], as the name of a
    [Define], a [Set] or a binding, as a parameter) is a token of the
    input array and is of the symbol type, and each value held by a
    [Literal] is the empty-list value or the payload of a number, string
    or boolean token of the input array. *)
Theorem parse_holds_only_input tokens fuel exprs c :
  Parser.parseWith tokens fuel = Return exprs c ->
  Forall (fromInput tokens) (flat_map leaves exprs).
Proof.
  intros Hret.
  pose proof (parseLoop_yieldsAll tokens fuel fuel [] 0 (Forall_nil _)) as H.
  unfold yieldsAll, wp in H. unfold Parser.parseWith in Hret.
  now rewrite Hret in H.
Qed.

Lemma parse_holds_only_input_witness :
  Forall
    (fromInput [Tok.LeftBracket; Tok.Symbol "define"; Tok.Symbol "x";
                Tok.Number "1" 1; Tok.RightBracket; Tok.Eof])
    (flat_map leaves [Define (Tok.Symbol "x") (Literal (JsNumber 1))]).
Proof.
  apply (parse_holds_only_input
           [Tok.LeftBracket; Tok.Symbol "define"; Tok.Symbol "x";
            Tok.Number "1" 1; Tok.RightBracket; Tok.Eof] 7
           [Define (Tok.Symbol "x") (Literal (JsNumber 1))] 5).
  reflexivity.
Defined.

(** ** [bindingsToMap] *)

Lemma mapGet_mapSet key value key' m :
  mapGet key' (mapSet key value m)
  = if key =? key' then Some value else mapGet key' m.
Proof.
  induction m as [|[k v] m IH]; simpl.
  - reflexivity.
  - destruct (String.eqb_spec k key) as [->|Hk]; simpl.
    + now destruct (key =? key').
    + destruct (String.eqb_spec k key') as [->|Hk']; [|exact IH].
      destruct (String.eqb_spec key key'); congruence.
Qed.

Lemma mapSet_keys key value m :
  map fst (mapSet key value m)
  = if existsb (String.eqb key) (map fst m) then map fst m
    else map fst m ++ [key].
Proof.
  induction m as [|[k v] m IH]; simpl; [reflexivity|].
  rewrite (String.eqb_sym key k).
  destruct (String.eqb_spec k key) as [->|Hk]; simpl; [reflexivity|].
  rewrite IH. now destruct (existsb (String.eqb key) (map fst m)).
Qed.

Lemma existsb_eqb_In key keys :
  existsb (String.eqb key) keys = true <-> In key keys.
Proof.
  rewrite existsb_exists. split.
  - intros (k & Hin & Heq). apply String.eqb_eq in Heq. now subst.
  - intros Hin. exists key. split; [assumption|apply String.eqb_refl].
Qed.

Lemma mapSet_NoDup key value m :
  NoDup (map fst m) -> NoDup (map fst (mapSet key value m)).
Proof.
  intros Hm. rewrite mapSet_keys.
  destruct (existsb (String.eqb key) (map fst m)) eqn:He; [assumption|].
  apply NoDup_app; [assumption|repeat constructor; auto|].
  intros k Hin [<-|[]].
  apply existsb_eqb_In in Hin. congruence.
Qed.

Lemma fold_mapSet_NoDup entries m :
  NoDup (map fst m) ->
  NoDup (map fst (fold_left (fun m kv => mapSet (fst kv) (snd kv) m)
                            entries m)).
Proof.
  revert m. induction entries as [|[k v] entries IH]; intros m Hm; simpl.
  - assumption.
  - apply IH. now apply mapSet_NoDup.
Qed.

Lemma fold_mapSet_get key entries m :
  mapGet key (fold_left (fun m kv => mapSet (fst kv) (snd kv) m) entries m)
  = match mapGet key (rev entries) with
    | Some value => Some value
    | None => mapGet key m
    end.
Proof.
  revert m. induction entries as [|[k v] entries IH]; intros m; simpl.
  - reflexivity.
  - rewrite IH, mapGet_mapSet.
    assert (Happ : forall l,
               mapGet key (l ++ [(k, v)])
               = match mapGet key l with
                 | Some value => Some value
                 | None => if k =? key then Some v else None
                 end).
    { induction l as [|[k' v'] l IHl]; simpl; [reflexivity|].
      now destruct (k' =? key). }
    rewrite Happ. destruct (mapGet key (rev entries)); [reflexivity|].
    now destruct (k =? key).
Qed.

Lemma fold_mapSet_keys entries m k :
  In k (map fst (fold_left (fun m kv => mapSet (fst kv) (snd kv) m)
                           entries m))
  <-> In k (map fst m) \/ In k (map fst entries).
Proof.
  revert m. induction entries as [|[k' v] entries IH]; intros m; simpl.
  - tauto.
  - rewrite IH, mapSet_keys.
    destruct (existsb (String.eqb k') (map fst m)) eqn:He.
    + apply existsb_eqb_In in He. intuition (subst; auto).
    + rewrite in_app_iff. simpl. tauto.
Qed.

(** X13. [bindingsToMap] keeps one entry per name.  The keys of its
    entries are pairwise distinct, they are exactly the lexemes of the
    binding names, and the value under a lexeme is the value of the last
    binding with that lexeme. *)
Theorem bindingsToMap_last_binding_wins bindings :
  NoDup (map fst (bindingsToMap bindings))
  /\ (forall key,
         In key (map fst (bindingsToMap bindings))
         <-> In key (map fst (map bindingEntry bindings)))
  /\ (forall key,
         mapGet key (bindingsToMap bindings)
         = mapGet key (rev (map bindingEntry bindings))).
Proof.
  unfold bindingsToMap, newMap. repeat split.
  - apply fold_mapSet_NoDup. constructor.
  - rewrite fold_mapSet_keys. simpl. tauto.
  - rewrite fold_mapSet_keys. simpl. tauto.
  - intros key. rewrite fold_mapSet_get. simpl.
    now destruct (mapGet key (rev (map bindingEntry bindings))).
Qed.

Lemma fold_mapSet_distinct entries m :
  NoDup (map fst (m ++ entries)) ->
  fold_left (fun m kv => mapSet (fst kv) (snd kv) m) entries m
  = m ++ entries.
Proof.
  revert m. induction entries as [|[k v] entries IH]; intros m Hnd; simpl.
  - now rewrite app_nil_r.
  - assert (Hset : mapSet k v m = m ++ [(k, v)]).
    { rewrite map_app in Hnd. simpl in Hnd.
      apply NoDup_remove_2 in Hnd.
      assert (Hk : ~ In k (map fst m)) by (rewrite in_app_iff in Hnd; tauto).
      clear - Hk. induction m as [|[k' v'] m IHm]; simpl; [reflexivity|].
      simpl in Hk.
      destruct (String.eqb_spec k' k) as [->|Hne]; [tauto|].
      rewrite IHm; tauto. }
    rewrite Hset, IH; rewrite <- app_assoc; [reflexivity|exact Hnd].
Qed.

(** X14. When the names of the bindings have pairwise distinct
    lexemes, the entries of [bindingsToMap] are the bindings themselves,
    as lexeme and value, in the order of the [let] form. *)
Theorem bindingsToMap_distinct_names bindings :
  NoDup (map fst (map bindingEntry bindings)) ->
  bindingsToMap bindings = map bindingEntry bindings.
Proof.
  intros Hnd. unfold bindingsToMap, newMap.
  now rewrite fold_mapSet_distinct.
Qed.

Lemma bindingsToMap_distinct_names_witness :
  bindingsToMap [mkLetBindingNode (Tok.Symbol "x") (Literal (JsNumber 1));
                 mkLetBindingNode (Tok.Symbol "y") (Literal (JsNumber 2))]
  = [("x", Literal (JsNumber 1)); ("y", Literal (JsNumber 2))].
Proof.
  apply (bindingsToMap_distinct_names
           [mkLetBindingNode (Tok.Symbol "x") (Literal (JsNumber 1));
            mkLetBindingNode (Tok.Symbol "y") (Literal (JsNumber 2))]).
  simpl. repeat constructor; simpl; intuition discriminate.
Defined.

(** ** Where failures are reported *)

Section Located.

Variable tokens : list Token.

Lemma previous_None_cases c :
  Parser.previous tokens c = None -> c = 0 \/ List.length tokens < c.
Proof.
  destruct c as [|c]; [auto|]. simpl. intros H.
  apply nth_error_None in H. lia.
Qed.

Local Ltac leaf :=
  try exact I;
  repeat match goal with
    | H : Parser.previous _ _ = None |- _ => apply previous_None_cases in H
    end;
  first [assumption | unfold located; cbv beta iota; lia].

Lemma consume_pointed tokenType c :
  0 < c -> pointed tokens (Parser.consume tokens tokenType) c.
Proof. intros Hc. unfold pointed. wp_steps; leaf. Qed.

Lemma untilRightBracket_pointed {A} (item : M A) c0 k acc :
  (forall c, c0 <= c -> pointed tokens item c) ->
  pointed tokens (Parser.untilRightBracket tokens item k acc) c0.
Proof.
  intros Hitem. unfold pointed.
  apply wp_untilRightBracket with (Inv := fun _ _ c => c0 <= c);
    [auto| |lia].
  intros k' acc' c Hc. wp_steps; try leaf.
  all: eapply wp_conseq; [apply (Hitem c Hc)|cbv beta; intros..]; auto; lia.
Qed.

Section Body.

Variables (e : M Expr) (n : nat).
Hypothesis He : forall c, pointed tokens e c.

Local Ltac call_e :=
  eapply wp_conseq; [apply He|cbv beta; intros ? ? ?..|intros ?].

Local Ltac loop item_pointed :=
  lazymatch goal with
  | |- wp (Parser.untilRightBracket _ _ _ _) _ _ _ _ =>
      eapply wp_conseq;
      [ apply untilRightBracket_pointed; intros ? ?; apply item_pointed
      | cbv beta; intros ? ? ?..
      | intros ? ]
  end.

Lemma letBinding_pointed c :
  0 < c -> pointed tokens (Parser.letBinding tokens e) c.
Proof.
  intros Hc. unfold pointed, Parser.letBinding.
  repeat first [wp_step | call_e]; leaf.
Qed.

Lemma expressionBody_pointed c :
  pointed tokens (Parser.expressionBody tokens e n) c.
Proof.
  unfold pointed, Parser.expressionBody, Parser.if_, Parser.define,
    Parser.set, Parser.let_, Parser.lambda, Parser.call.
  repeat first
    [ wp_step | call_e
    | loop (fun c (_ : True) => He c)
    | loop letBinding_pointed
    | loop (consume_pointed TokenType.Symbol) ];
    leaf.
Qed.

End Body.

Lemma expression_pointed fuel c :
  pointed tokens (Parser.expression tokens fuel) c.
Proof.
  revert c. induction fuel as [|n IH]; intros c.
  - exact I.
  - simpl. now apply expressionBody_pointed.
Qed.

Lemma parseLoop_located fuel k acc c :
  wp (Parser.parseLoop tokens fuel k acc) c
     (fun _ _ => True) (located (List.length tokens)) True.
Proof.
  revert acc c. induction k as [|k IH]; intros acc c.
  - exact I.
  - simpl. unfold Parser.isAtEnd. apply wp_bind, wp_check.
    wp_steps; try leaf.
    all: eapply wp_conseq;
      [apply expression_pointed|cbv beta; intros|auto..].
    all: apply IH.
Qed.

End Located.

(** X15. Whatever the token array, [parse] fails in one of two ways.  A
    [SyntaxError] is always thrown with the cursor on a token of the
    array.  The only other failure is a [TypeError], and it is thrown
    only once the cursor stands behind the last token, that is when the
    array does not close its forms with an end-of-input token. *)
Theorem parse_failure_is_located tokens fuel e c :
  Parser.parseWith tokens fuel = Throw e c ->
  match e with
  | SyntaxError _ => c < List.length tokens
  | TypeError => List.length tokens <= c
  end.
Proof.
  intros Hthrow. pose proof (parseLoop_located tokens fuel fuel [] 0) as H.
  unfold wp in H. unfold Parser.parseWith in Hthrow. now rewrite Hthrow in H.
Qed.

Lemma parse_failure_is_located_witness :
  3 < List.length [Tok.LeftBracket; Tok.LeftBracket; Tok.RightBracket;
                   Tok.Eof].
Proof.
  apply (parse_failure_is_located
           [Tok.LeftBracket; Tok.LeftBracket; Tok.RightBracket; Tok.Eof] 5
           (SyntaxError (UnexpectedToken TokenType.Eof)) 3).
  reflexivity.
Defined.
